(** * A pool of singly-linked stacks sharing one vector of nodes

  Shallow embedding of [src/exam/stack_pool.hpp] and of its two variants
  [src/exam/src/first_impl.cpp] and [src/exam/src/stack_pool.cpp].

  - A handle ([stack_type], i.e. [std::size_t]) is a number in [N]; the
    only arithmetic the class performs on handles is the [x-1] of [node],
    whose wrap-around at [x = 0] is written out in [sub1].
  - The backing [std::vector<node_t>] is a list of nodes together with
    its capacity.  Indexing the vector outside [0 .. size()-1] is undefined
    behaviour in C++; here it is the outcome [OutOfRange].
  - The [for] loops over a chain need not terminate on a cyclic chain, so
    they take fuel and answer [OutOfFuel] when it runs out.
  - Memory exhaustion of [push_back] is not modelled. *)

From stdpp Require Import base numbers list strings pretty.

Local Open Scope N_scope.

(** ** Outcomes of an operation *)

Inductive outcome (A : Type) : Type :=
  | Done (a : A)            (* normal return *)
  | OutOfRange (i : N)      (* [pool[i]] with [i >= pool.size()] *)
  | OutOfFuel.               (* loop fuel exhausted *)
Arguments Done {A} a.
Arguments OutOfRange {A} i.
Arguments OutOfFuel {A}.

Global Instance outcome_ret : MRet outcome := @Done.
Global Instance outcome_bind : MBind outcome := λ A B f m,
  match m with
  | Done a => f a
  | OutOfRange i => OutOfRange i
  | OutOfFuel => OutOfFuel
  end.

(** ** std::vector *)

Record vector (A : Type) : Type := Vector { elems : list A; vcap : N }.
Arguments Vector {A} elems vcap.
Arguments elems {A} v.
Arguments vcap {A} v.

Module vec.
Section vec.
Context {A : Type}.
(** Capacity chosen by a reallocating [push_back], as a function of the
    current size; the C++ standard leaves it to the implementation. *)
Variable grow : N → N.

Definition empty : vector A := Vector [] 0.

Definition size (v : vector A) : N := N.of_nat (length (elems v)).

Definition capacity (v : vector A) : N := vcap v.

Definition reserve (n : N) (v : vector A) : vector A :=
  if vcap v <? n then Vector (elems v) n else v.

(** [v[i]] as an rvalue *)
Definition get (v : vector A) (i : N) : outcome A :=
  if i <? size v then
    match elems v !! N.to_nat i with
    | Some a => Done a
    | None => OutOfRange i
    end
  else OutOfRange i.

(** [v[i] = a] *)
Definition set (v : vector A) (i : N) (a : A) : outcome (vector A) :=
  if i <? size v then Done (Vector (<[N.to_nat i := a]> (elems v)) (vcap v))
  else OutOfRange i.

Definition push_back (v : vector A) (a : A) : vector A :=
  Vector (elems v ++ [a])
         (if size v =? vcap v then grow (size v) else vcap v).
End vec.
End vec.

(** The policy of libstdc++: the capacity doubles, starting from one. *)
Definition grow_double (n : N) : N := n + N.max n 1.

(** ** The pool of stack_pool.hpp *)

Definition SIZE_MAX : N := 2 ^ 64 - 1.

(** [x - 1] on [std::size_t] *)
Definition sub1 (x : N) : N := if x =? 0 then SIZE_MAX else x - 1.

Record node_t (T : Type) : Type := Node { n_value : T; n_next : N }.
Arguments Node {T} n_value n_next.
Arguments n_value {T} n.
Arguments n_next {T} n.

Record stack_pool (T : Type) : Type :=
  StackPool { pool : vector (node_t T); free_nodes : N }.
Arguments StackPool {T} pool free_nodes.
Arguments pool {T} s.
Arguments free_nodes {T} s.

(** The iterator keeps the handle; its pool pointer [p] is the pool passed
  to the operations below. *)
Record _iterator : Type := Iterator { stack_index : N }.

Section stack_pool.
Context {T : Type}.
Variable grow : N → N.

Definition end_ : N := 0.

Definition empty (x : N) : bool := if x =? end_ then true else false.

Definition new_stack : N := 0.

(** The constructors [stack_pool()] and [stack_pool(n)] *)
Definition make : stack_pool T := StackPool vec.empty end_.
Definition make_n (n : N) : stack_pool T :=
  StackPool (vec.reserve n vec.empty) 0.

Definition reserve (n : N) (p : stack_pool T) : stack_pool T :=
  StackPool (vec.reserve n (pool p)) (free_nodes p).
Definition capacity (p : stack_pool T) : N := vec.capacity (pool p).

(** [node(x)] is [pool[x-1]] *)
Definition node (p : stack_pool T) (x : N) : outcome (node_t T) :=
  vec.get (pool p) (sub1 x).
Definition set_node (p : stack_pool T) (x : N) (n : node_t T) : outcome (stack_pool T) :=
  v ← vec.set (pool p) (sub1 x) n; mret (StackPool v (free_nodes p)).

(** [value(x)], [next(x)] read, and assigned through the reference *)
Definition value (p : stack_pool T) (x : N) : outcome T :=
  n ← node p x; mret (n_value n).
Definition next (p : stack_pool T) (x : N) : outcome N :=
  n ← node p x; mret (n_next n).
Definition set_value (p : stack_pool T) (x : N) (v : T) : outcome (stack_pool T) :=
  n ← node p x; set_node p x (Node v (n_next n)).
Definition set_next (p : stack_pool T) (x : N) (y : N) : outcome (stack_pool T) :=
  n ← node p x; set_node p x (Node (n_value n) y).

Definition set_free_nodes (p : stack_pool T) (f : N) : stack_pool T :=
  StackPool (pool p) f.

(** *** Iterators *)

Definition begin_ (x : N) : _iterator := Iterator x.
Definition end_it (_ : N) : _iterator := Iterator end_.
Definition deref (p : stack_pool T) (it : _iterator) : outcome T :=
  value p (stack_index it).
(** [operator++()] *)
Definition incr (p : stack_pool T) (it : _iterator) : outcome _iterator :=
  x ← next p (stack_index it); mret (Iterator x).
(** [operator++(int)]: the new iterator and the returned copy *)
Definition incr_post (p : stack_pool T) (it : _iterator)
  : outcome (_iterator * _iterator) :=
  let tmp := it in
  it' ← incr p it; mret (it', tmp).
Definition iter_eq (x y : _iterator) : bool :=
  stack_index x =? stack_index y.
Definition iter_neq (x y : _iterator) : bool := negb (iter_eq x y).

(** *** push, pop, free_stack *)

Definition _push (p : stack_pool T) (val : T) (head : N)
  : outcome (stack_pool T * N) :=
  if negb (empty (free_nodes p)) then
    let tmp := free_nodes p in
    f ← next p (free_nodes p);
    let p := set_free_nodes p f in
    p ← set_value p tmp val;
    p ← set_next p tmp head;
    mret (p, tmp)
  else
    let p' := StackPool (vec.push_back grow (pool p) (Node val head))
                        (free_nodes p) in
    mret (p', vec.size (pool p')).

Definition push (p : stack_pool T) (val : T) (head : N)
  : outcome (stack_pool T * N) := _push p val head.

Definition free_node (p : stack_pool T) (x : N) (free : N)
  : outcome (stack_pool T * N) :=
  let tmp := free in
  let free := x in
  p ← set_next p free tmp;
  mret (p, free).

Definition pop (p : stack_pool T) (x : N) : outcome (stack_pool T * N) :=
  let head := x in
  if negb (empty x) then
    head ← next p x;
    '(p, f) ← free_node p x (free_nodes p);
    mret (set_free_nodes p f, head)
  else mret (p, head).

(** The loop of [free_stack]: [it] runs from [next(x)] to the end while
    [x] follows one node behind. *)
Fixpoint free_stack_loop (fuel : nat) (p : stack_pool T) (it : _iterator)
    (x : N) : outcome N :=
  if iter_neq it (end_it 0) then
    match fuel with
    | O => OutOfFuel
    | S fuel =>
        x ← next p x;
        '(it, _) ← incr_post p it;
        free_stack_loop fuel p it x
    end
  else mret x.

Definition free_stack (fuel : nat) (p : stack_pool T) (x : N)
  : outcome (stack_pool T * N) :=
  let start := x in
  next_idx ← next p x;
  x ← free_stack_loop fuel p (begin_ next_idx) x;
  p ← set_next p x (free_nodes p);
  let p := set_free_nodes p start in
  mret (p, end_).

(** [print_stack]: the values written to [std::cout], in order *)
Fixpoint print_loop (fuel : nat) (p : stack_pool T) (it : _iterator)
  : outcome (list T) :=
  if iter_neq it (end_it 0) then
    match fuel with
    | O => OutOfFuel
    | S fuel =>
        v ← deref p it;
        '(it, _) ← incr_post p it;
        vs ← print_loop fuel p it;
        mret (v :: vs)
    end
  else mret [].

Definition print_stack (fuel : nat) (p : stack_pool T) (x : N)
  : outcome (list T) := print_loop fuel p (begin_ x).

(** The driver's [l = pool.push(v, l)] for each value in turn *)
Fixpoint push_all (p : stack_pool T) (vs : list T) (l : N)
  : outcome (stack_pool T * N) :=
  match vs with
  | [] => mret (p, l)
  | v :: vs => '(p, l) ← push p v l; push_all p vs l
  end.
End stack_pool.

(** ** first_impl.cpp

    The accessors [node], [value], [next], [empty], [end], [free_node] and
    the bodies of [pop], [free_stack] and [_push] are the text of the
    header; what differs is [capacity] and the iterator, which keeps the
    address of the current node instead of its handle.

    A pointer to a node is obtained by subscripting the storage:
    [&node(x)] is [&pool[x-1]], out of range when the subscript is, like
    every other subscript of the storage.  The pointer is modelled by the
    position of the node, and two pointers are compared as the 64-bit
    addresses they are. *)

Module FirstImpl.

Record _iterator : Type := Iterator { current : N }.

Section first_impl.
Context {T : Type}.
(** [sizeof(node_t)] *)
Variable node_size : N.

Definition make_n (n : N) : stack_pool T :=
  StackPool (vec.reserve n vec.empty) 0.

Definition capacity (p : stack_pool T) : N := vec.size (pool p).

(** [next_node(x)] is [node(x)] *)
Definition next_node (p : stack_pool T) (x : N) : outcome (node_t T) :=
  node p x.

(** The address of [pool[i]], counted from [pool.data()] *)
Definition address (i : N) : N := (i * node_size) mod 2 ^ 64.

(** [&node(x)]: the subscript [pool[x-1]], then its position *)
Definition node_ptr (p : stack_pool T) (x : N) : outcome N :=
  node p x;; mret (sub1 x).

Definition begin_ (p : stack_pool T) (x : N) : outcome _iterator :=
  c ← node_ptr p x; mret (Iterator c).
Definition end_it (p : stack_pool T) (_ : N) : outcome _iterator :=
  c ← node_ptr p end_; mret (Iterator c).
(** [current->value] *)
Definition deref (p : stack_pool T) (it : _iterator) : outcome T :=
  n ← vec.get (pool p) (current it); mret (n_value n).
(** [current = &p->next_node(current->next)] *)
Definition incr (p : stack_pool T) (it : _iterator) : outcome _iterator :=
  n ← vec.get (pool p) (current it);
  next_node p (n_next n);;
  mret (Iterator (sub1 (n_next n))).
Definition incr_post (p : stack_pool T) (it : _iterator)
  : outcome (_iterator * _iterator) :=
  let tmp := it in
  it' ← incr p it; mret (it', tmp).
Definition iter_eq (x y : _iterator) : bool :=
  address (current x) =? address (current y).
Definition iter_neq (x y : _iterator) : bool := negb (iter_eq x y).

Definition pop (p : stack_pool T) (x : N) : outcome (stack_pool T * N) :=
  let head := x in
  if negb (empty x) then
    head ← next p x;
    '(p, f) ← free_node p x (free_nodes p);
    mret (set_free_nodes p f, head)
  else mret (p, head).

(** The loop test [it != end(0)] forms [end(0)] each time round. *)
Fixpoint free_stack_loop (fuel : nat) (p : stack_pool T) (it : _iterator)
    (x : N) : outcome N :=
  last ← end_it p 0;
  if iter_neq it last then
    match fuel with
    | O => OutOfFuel
    | S fuel =>
        x ← next p x;
        '(it, _) ← incr_post p it;
        free_stack_loop fuel p it x
    end
  else mret x.

Definition free_stack (fuel : nat) (p : stack_pool T) (x : N)
  : outcome (stack_pool T * N) :=
  let start := x in
  next_idx ← next p x;
  it ← begin_ p next_idx;
  x ← free_stack_loop fuel p it x;
  p ← set_next p x (free_nodes p);
  let p := set_free_nodes p start in
  mret (p, end_).

Fixpoint print_loop (fuel : nat) (p : stack_pool T) (it : _iterator)
  : outcome (list T) :=
  last ← end_it p 0;
  if iter_neq it last then
    match fuel with
    | O => OutOfFuel
    | S fuel =>
        v ← deref p it;
        '(it, _) ← incr_post p it;
        vs ← print_loop fuel p it;
        mret (v :: vs)
    end
  else mret [].

Definition print_stack (fuel : nat) (p : stack_pool T) (x : N)
  : outcome (list T) :=
  it ← begin_ p x; print_loop fuel p it.
End first_impl.
End FirstImpl.

(** ** src/stack_pool.cpp, the variant with [check_index]

    An operation returns its result together with the lines it wrote to
    [std::cerr]. *)

Module Validated.

Record index_invalid : Type := IndexInvalid { message : string }.

Inductive method : Type := method_push | method_pop.

(** [std::to_string] of a [std::size_t] *)
Definition to_string (x : N) : string := pretty x.

(** [inl s]: [s] is thrown; [inr tt]: the function returns. *)
Definition check_index (x : N) (m : method) : index_invalid + unit :=
  match m with
  | method_push =>
      if x <? end_ then
        inl (IndexInvalid ("You provided an invalid index: " +:+ to_string x))
      else inr tt
  | method_pop =>
      if x <=? end_ then
        inl (IndexInvalid ("You provided an invalid index: " +:+ to_string x))
      else inr tt
  end.

Section validated.
Context {T : Type}.
Variable grow : N → N.

Definition make_n (n : N) : stack_pool T :=
  StackPool (vec.reserve n vec.empty) 0.

Definition capacity (p : stack_pool T) : N := vec.capacity (pool p).

Definition pop (p : stack_pool T) (x : N)
  : outcome (stack_pool T * N) * list string :=
  match check_index x method_pop with
  | inl s => (mret (p, 1), [message s])
  | inr _ =>
      let head := x in
      (if negb (empty x) then
         head ← next p x;
         '(p, f) ← free_node p x (free_nodes p);
         mret (set_free_nodes p f, head)
       else mret (p, head), [])
  end.

Definition _push (p : stack_pool T) (val : T) (head : N)
  : outcome (stack_pool T * N) * list string :=
  match check_index head method_push with
  | inl s => (mret (p, 1), [message s])
  | inr _ =>
      (if negb (empty (free_nodes p)) then
         let tmp := free_nodes p in
         f ← next p (free_nodes p);
         let p := set_free_nodes p f in
         p ← set_value p tmp val;
         p ← set_next p tmp head;
         mret (p, tmp)
       else
         let p' := StackPool (vec.push_back grow (pool p) (Node val head))
                             (free_nodes p) in
         mret (p', vec.size (pool p')), [])
  end.

Definition push (p : stack_pool T) (val : T) (head : N)
  : outcome (stack_pool T * N) * list string := _push p val head.
End validated.
End Validated.

(** ** Chains and the invariants of the specification *)

Section chains.
Context {T : Type}.

(** [chain p h l]: following [next] from [h] reaches the sentinel, and [l]
    lists the nodes met on the way, each with the value it stores. *)
Inductive chain (p : stack_pool T) : N → list (N * T) → Prop :=
  | chain_end : chain p 0 []
  | chain_step h n l :
      h ≠ 0 → node p h = Done n → chain p (n_next n) l →
      chain p h ((h, n_value n) :: l).

(** [path p h l e]: the same walk, stopped at the handle [e] instead of
    the sentinel. *)
Inductive path (p : stack_pool T) : N → list (N * T) → N → Prop :=
  | path_end e : path p e [] e
  | path_step h n l e :
      h ≠ 0 → node p h = Done n → path p (n_next n) l e →
      path p h ((h, n_value n) :: l) e.

(** The handles [1 .. len] of the allocated nodes *)
Definition handles (p : stack_pool T) : list N :=
  N.of_nat <$> seq 1 (length (elems (pool p))).

(** I2, with I3: the caller-held handles [roots] and the free head each
    head a chain, and these chains together hold every allocated node
    exactly once. *)
Definition I2 (p : stack_pool T) (roots : list N) : Prop :=
  ∃ ls lf, Forall2 (chain p) roots ls ∧ chain p (free_nodes p) lf ∧
           (concat ls ++ lf).*1 ≡ₚ handles p.

(** The chain of [h], computed; [None] when the walk leaves the storage or
    runs out of fuel. *)
Fixpoint walk (fuel : nat) (p : stack_pool T) (h : N) : option (list (N * T)) :=
  if h =? 0 then Some []
  else match fuel with
       | O => None
       | S fuel =>
           match node p h with
           | Done n => l ← walk fuel p (n_next n); Some ((h, n_value n) :: l)
           | _ => None
           end
       end.

(** I2 as a test.  No chain is longer than the storage, which bounds the
    fuel. *)
Definition I2b (p : stack_pool T) (roots : list N) : bool :=
  let fuel := length (elems (pool p)) in
  match mapM (walk fuel p) roots, walk fuel p (free_nodes p) with
  | Some ls, Some lf => bool_decide ((concat ls ++ lf).*1 ≡ₚ handles p)
  | _, _ => false
  end.

(** The pool [p] with the node [n] stored at handle [x] *)
Definition upd (p : stack_pool T) (x : N) (n : node_t T) : stack_pool T :=
  StackPool (Vector (<[N.to_nat (sub1 x) := n]> (elems (pool p)))
                    (vcap (pool p)))
            (free_nodes p).
End chains.

(** ** The driver: [std::max_element], [std::min_element], and the states
    it can reach *)

Section driver.
Context {T : Type}.
Variable grow : N → N.
(** [operator<] of the values *)
Variable lt : T → T → bool.

(** The loop of [std::max_element]: [largest] is replaced by [first] when
    [*largest < *first]. *)
Fixpoint max_element_loop (fuel : nat) (p : stack_pool T)
    (largest first last : _iterator) : outcome _iterator :=
  if iter_neq first last then
    match fuel with
    | O => OutOfFuel
    | S fuel =>
        a ← deref p largest;
        b ← deref p first;
        let largest := if lt a b then first else largest in
        first ← incr p first;
        max_element_loop fuel p largest first last
    end
  else mret largest.

Definition max_element (fuel : nat) (p : stack_pool T)
    (first last : _iterator) : outcome _iterator :=
  if iter_eq first last then mret last
  else
    let largest := first in
    first ← incr p first;
    max_element_loop fuel p largest first last.

(** The loop of [std::min_element]: [smallest] is replaced by [first] when
    [*first < *smallest]. *)
Fixpoint min_element_loop (fuel : nat) (p : stack_pool T)
    (smallest first last : _iterator) : outcome _iterator :=
  if iter_neq first last then
    match fuel with
    | O => OutOfFuel
    | S fuel =>
        a ← deref p first;
        b ← deref p smallest;
        let smallest := if lt a b then first else smallest in
        first ← incr p first;
        min_element_loop fuel p smallest first last
    end
  else mret smallest.

Definition min_element (fuel : nat) (p : stack_pool T)
    (first last : _iterator) : outcome _iterator :=
  if iter_eq first last then mret last
  else
    let smallest := first in
    first ← incr p first;
    min_element_loop fuel p smallest first last.

(** What [max_element] and [min_element] keep when they compare the value
    kept so far, [a], with the next one, [b] *)
Definition keep_max (a b : T) : T := if lt a b then b else a.
Definition keep_min (a b : T) : T := if lt b a then b else a.

(** [reachable p roots]: the pool [p] and the handles [roots] held by the
    caller result from a construction followed by calls of [new_stack],
    [reserve], [push], [pop] and [free_stack], each of the last three on a
    handle the caller holds, whose place the handle returned takes. *)
Inductive reachable : stack_pool T → list N → Prop :=
  | reach_make : reachable make []
  | reach_make_n n : reachable (make_n n) []
  | reach_new_stack p roots :
      reachable p roots → reachable p (new_stack :: roots)
  | reach_reserve p roots n :
      reachable p roots → reachable (reserve n p) roots
  | reach_push p r1 head r2 val p' h :
      reachable p (r1 ++ head :: r2) →
      push grow p val head = Done (p', h) →
      reachable p' (r1 ++ h :: r2)
  | reach_pop p r1 head r2 p' h :
      reachable p (r1 ++ head :: r2) →
      pop p head = Done (p', h) →
      reachable p' (r1 ++ h :: r2)
  | reach_free_stack p r1 head r2 fuel p' h :
      reachable p (r1 ++ head :: r2) → head ≠ 0 →
      free_stack fuel p head = Done (p', h) →
      reachable p' (r1 ++ h :: r2).
End driver.

(** ** Pools of the driver *)

(** [stack_pool<int> pool{22}], with the vector of libstdc++ *)
Definition p22 : stack_pool Z := make_n 22.

Definition digits : list Z := [3; 1; 4; 1; 5; 9; 2; 6; 5; 3; 5]%Z.

(** A stack of five nodes, [5] on top *)
Definition p5 : stack_pool Z :=
  StackPool (Vector [Node 3 0; Node 1 1; Node 4 2; Node 1 3; Node 5 4]%Z 22) 0.

(** Two stacks, headed by [2] and [4], and the free node [5] *)
Definition ps : stack_pool Z :=
  StackPool (Vector [Node 3 0; Node 1 1; Node 8 0; Node 9 3; Node 7 0]%Z 22) 5.

(** A pool whose free head is not the handle of a node *)
Definition pbad : stack_pool Z := StackPool (Vector [] 0) 3.

(** The pushes of [main]: the two stacks [l1] and [l2] *)
Definition digits2 : list Z := [8; 9; 7; 9; 3; 1; 1; 5; 9; 9; 7]%Z.

Definition main_state : outcome (stack_pool Z * N * N) :=
  '(p, l1) ← push_all grow_double p22 digits new_stack;
  '(p, l2) ← push_all grow_double p digits2 new_stack;
  mret (p, l1, l2).

Definition main_pool : stack_pool Z :=
  match main_state with
  | Done (p, _, _) => p
  | _ => p22
  end.

(** The chain of [l1] at the end of [main] *)
Definition main_l1 : list (N * Z) :=
  [(11, 5%Z); (10, 3%Z); (9, 5%Z); (8, 6%Z); (7, 2%Z); (6, 9%Z); (5, 5%Z);
   (4, 1%Z); (3, 4%Z); (2, 1%Z); (1, 3%Z)].

Section basics.
Context {T : Type}.
Implicit Types (p : stack_pool T) (x y h : N) (n : node_t T).

Lemma sub1_pos x : x ≠ 0 → sub1 x = x - 1.
Proof. unfold sub1. intros. destruct (N.eqb_spec x 0); done. Qed.

Lemma sub1_inj x y : x ≠ 0 → y ≠ 0 → sub1 x = sub1 y → x = y.
Proof. intros Hx Hy. rewrite (sub1_pos x Hx), (sub1_pos y Hy). lia. Qed.

Lemma node_Done p x n :
  node p x = Done n ↔
  sub1 x < vec.size (pool p) ∧ elems (pool p) !! N.to_nat (sub1 x) = Some n.
Proof.
  unfold node, vec.get. destruct (N.ltb_spec (sub1 x) (vec.size (pool p))).
  - destruct (elems (pool p) !! N.to_nat (sub1 x));
      (split; [intros [= ->] | intros [_ [= ->]]]); done.
  - split; [done | lia].
Qed.

Lemma node_in_range p x n :
  x ≠ 0 → node p x = Done n → 1 ≤ x ≤ vec.size (pool p).
Proof. intros Hx [Hlt _]%node_Done. rewrite (sub1_pos x Hx) in Hlt. lia. Qed.

Lemma node_of_range p x :
  1 ≤ x ≤ vec.size (pool p) → ∃ n, node p x = Done n.
Proof.
  intros Hr. assert (Hx : x ≠ 0) by lia.
  destruct (elems (pool p) !! N.to_nat (sub1 x)) as [n|] eqn:E.
  - exists n. apply node_Done. split; [| done].
    rewrite (sub1_pos x Hx). lia.
  - apply lookup_ge_None in E. rewrite (sub1_pos x Hx) in E.
    unfold vec.size in Hr. lia.
Qed.

Lemma set_node_Done p x n n' :
  node p x = Done n → set_node p x n' = Done (upd p x n').
Proof.
  intros [? _]%node_Done. unfold set_node, vec.set.
  destruct (N.ltb_spec (sub1 x) (vec.size (pool p))); [done | lia].
Qed.

Lemma node_upd_eq p x n n' :
  node p x = Done n → node (upd p x n') x = Done n'.
Proof.
  intros [? _]%node_Done. apply node_Done. unfold vec.size in *. simpl.
  rewrite length_insert. split; [done |].
  apply list_lookup_insert_eq. lia.
Qed.

Lemma node_upd_ne p x y n' :
  x ≠ 0 → y ≠ 0 → x ≠ y → node (upd p x n') y = node p y.
Proof.
  intros H H0 H1. unfold node, vec.get, vec.size. simpl.
  rewrite length_insert, list_lookup_insert_ne; [done |].
  intros E. apply H1, sub1_inj; [done .. | lia].
Qed.

Lemma size_upd p x n' : vec.size (pool (upd p x n')) = vec.size (pool p).
Proof. unfold vec.size. simpl. by rewrite length_insert. Qed.

Lemma handles_upd p x n' : handles (upd p x n') = handles p.
Proof. unfold handles. simpl. by rewrite length_insert. Qed.

Lemma handles_set_free_nodes p f : handles (set_free_nodes p f) = handles p.
Proof. reflexivity. Qed.

Lemma size_recycled p x n' f :
  vec.size (pool (set_free_nodes (upd p x n') f)) = vec.size (pool p).
Proof. apply size_upd. Qed.

Lemma capacity_recycled p x n' f :
  capacity (set_free_nodes (upd p x n') f) = capacity p.
Proof. reflexivity. Qed.

Lemma upd_upd p x n1 n2 : upd (upd p x n1) x n2 = upd p x n2.
Proof. unfold upd. simpl. by rewrite list_insert_insert_eq. Qed.

Lemma set_next_Done p x y n :
  node p x = Done n → set_next p x y = Done (upd p x (Node (n_value n) y)).
Proof. intros E. unfold set_next. rewrite E. simpl. by eapply set_node_Done. Qed.

Lemma set_value_Done p x v n :
  node p x = Done n → set_value p x v = Done (upd p x (Node v (n_next n))).
Proof. intros E. unfold set_value. rewrite E. simpl. by eapply set_node_Done. Qed.

Lemma next_Done p x n : node p x = Done n → next p x = Done (n_next n).
Proof. intros E. unfold next. by rewrite E. Qed.

Lemma value_Done p x n : node p x = Done n → value p x = Done (n_value n).
Proof. intros E. unfold value. by rewrite E. Qed.

Lemma empty_false x : x ≠ 0 → empty x = false.
Proof. unfold empty, end_. intros. by destruct (N.eqb_spec x 0). Qed.
End basics.

(** ** Chains *)

Section chain_facts.
Context {T : Type}.
Implicit Types (p : stack_pool T) (x y h : N) (n : node_t T)
  (l : list (N * T)).

Lemma chain_zero p l : chain p 0 l → l = [].
Proof. by inversion 1. Qed.

Lemma chain_nil_inv p h : chain p h [] → h = 0.
Proof. by inversion 1. Qed.

Lemma chain_cons_inv p h x v l :
  chain p h ((x, v) :: l) →
  h = x ∧ x ≠ 0 ∧ ∃ n, node p x = Done n ∧ n_value n = v ∧ chain p (n_next n) l.
Proof. inversion 1; subst. eauto 10. Qed.

Lemma chain_det p h l1 l2 : chain p h l1 → chain p h l2 → l1 = l2.
Proof.
  intros H. revert l2. induction H as [|h n l Hh Hn _ IH]; intros l2 H2.
  - by apply chain_zero in H2.
  - inversion H2 as [|h' n' l' _ Hn' Hl']; subst; [done |].
    rewrite Hn in Hn'. injection Hn' as <-. f_equal. by apply IH.
Qed.

Lemma chain_nonzero p h l x : chain p h l → x ∈ l.*1 → x ≠ 0.
Proof.
  induction 1 as [|h n l Hh Hn _ IH]; simpl.
  - by intros ?%elem_of_nil.
  - intros [->|?]%elem_of_cons; auto.
Qed.

Lemma chain_in_range p h l x :
  chain p h l → x ∈ l.*1 → 1 ≤ x ≤ vec.size (pool p).
Proof.
  induction 1 as [|h n l Hh Hn _ IH]; simpl.
  - by intros ?%elem_of_nil.
  - intros [->|?]%elem_of_cons; [by eapply node_in_range | auto].
Qed.

Lemma elem_of_handles p x : x ∈ handles p ↔ 1 ≤ x ≤ vec.size (pool p).
Proof.
  unfold handles, vec.size. rewrite list_elem_of_fmap. split.
  - intros (k & -> & Hk%elem_of_seq). lia.
  - intros ?. exists (N.to_nat x). split; [lia |]. apply elem_of_seq. lia.
Qed.

Lemma NoDup_handles p : NoDup (handles p).
Proof.
  unfold handles. apply NoDup_fmap_2; [| apply NoDup_seq].
  intros ? ? ?. lia.
Qed.

(** A chain only depends on the nodes it visits. *)
Lemma chain_frame p p' h l :
  chain p h l → (∀ x, x ∈ l.*1 → node p' x = node p x) → chain p' h l.
Proof.
  induction 1 as [|h n l Hh Hn _ IH]; intros Hsame; [constructor |].
  constructor; [done | |].
  - rewrite Hsame; [done | left].
  - apply IH. intros x Hx. apply Hsame. by right.
Qed.

Lemma chain_suffix p h l1 l2 x v :
  chain p h (l1 ++ (x, v) :: l2) → chain p x ((x, v) :: l2).
Proof.
  revert h. induction l1 as [|[y w] l1 IH]; simpl; intros h H.
  - by destruct (chain_cons_inv _ _ _ _ _ H) as [-> _].
  - apply chain_cons_inv in H as (_ & _ & n & _ & _ & H). by eapply IH.
Qed.

(** A chain that reaches the sentinel never visits a node twice. *)
Lemma chain_NoDup p h l : chain p h l → NoDup l.*1.
Proof.
  induction 1 as [|h n l Hh Hn Hl IH]; simpl; [constructor |].
  constructor; [| done]. intros Hin.
  apply list_elem_of_fmap in Hin as ([h' v] & -> & Hin). simpl in *.
  apply list_elem_of_split in Hin as (l1 & l2 & ->).
  pose proof (chain_suffix _ _ _ _ _ _ Hl) as Hs.
  apply chain_cons_inv in Hs as (_ & _ & n' & Hn' & _ & Hs).
  rewrite Hn in Hn'. injection Hn' as <-.
  pose proof (chain_det _ _ _ _ Hl Hs) as E.
  apply (f_equal length) in E. rewrite length_app in E. simpl in E. lia.
Qed.

(** Rewriting the [next] of the last node of a chain to [f] appends the
    chain of [f]. *)
Lemma chain_splice p h l t vt f lf :
  chain p h (l ++ [(t, vt)]) → chain p f lf → t ∉ lf.*1 →
  chain (upd p t (Node vt f)) h (l ++ (t, vt) :: lf).
Proof.
  intros Hl Hf Ht. pose proof (chain_NoDup _ _ _ Hl) as Hnd. revert h Hl Hnd.
  induction l as [|[x v] l IH]; simpl; intros h Hl Hnd.
  - apply chain_cons_inv in Hl as (-> & Hx & n & Hn & <- & _).
    apply (chain_step _ t (Node (n_value n) f)); [done | by eapply node_upd_eq |].
    simpl. eapply chain_frame; [done |]. intros y Hy.
    apply node_upd_ne; [done | by eapply chain_nonzero | congruence].
  - apply chain_cons_inv in Hl as (-> & Hx & n & Hn & <- & Hl).
    apply NoDup_cons in Hnd as [Hx' Hnd].
    assert (t ≠ x).
    { intros ->. apply Hx'. rewrite fmap_app. apply elem_of_app. right. left. }
    assert (t ≠ 0).
    { eapply chain_nonzero; [done |]. rewrite fmap_app. apply elem_of_app.
      right. left. }
    apply chain_step; [done | | by apply IH].
    by rewrite node_upd_ne.
Qed.

Lemma walk_chain fuel p h l : walk fuel p h = Some l → chain p h l.
Proof.
  revert h l. induction fuel as [|fuel IH]; simpl; intros h l;
    destruct (N.eqb_spec h 0) as [->|Hh];
    try (intros [= <-]; constructor); try done.
  destruct (node p h) as [n| |] eqn:Hn; try done.
  destruct (walk fuel p (n_next n)) as [l'|] eqn:Hw; simpl; [| done].
  intros [= <-]. constructor; [done .. |]. by apply IH.
Qed.

Lemma chain_walk fuel p h l :
  chain p h l → (length l ≤ fuel)%nat → walk fuel p h = Some l.
Proof.
  intros H. revert fuel. induction H as [|h n l Hh Hn _ IH]; intros fuel Hfuel.
  - by destruct fuel.
  - destruct fuel as [|fuel]; simpl in *; [lia |].
    destruct (N.eqb_spec h 0); [done |].
    rewrite Hn, IH; [done | lia].
Qed.

(** A chain is no longer than the storage. *)
Lemma chain_length p h l : chain p h l → (length l ≤ length (elems (pool p)))%nat.
Proof.
  intros H.
  assert (Hsub : l.*1 ⊆+ handles p).
  { apply NoDup_submseteq; [by eapply chain_NoDup |].
    intros x Hx. apply elem_of_handles. by eapply chain_in_range. }
  apply submseteq_length in Hsub.
  unfold handles in Hsub. by rewrite !length_fmap, length_seq in Hsub.
Qed.

Lemma chain_last_node p h l t vt :
  chain p h (l ++ [(t, vt)]) → ∃ n, node p t = Done n ∧ n_value n = vt ∧ n_next n = 0.
Proof.
  intros H%chain_suffix. apply chain_cons_inv in H as (_ & _ & n & ? & ? & H).
  apply chain_nil_inv in H. eauto.
Qed.
End chain_facts.

(** ** What each operation computes on a well-formed argument *)

(** Goals that compare the fuel with the length of a chain *)
Ltac solve_fuel := simpl; repeat case_decide; simpl; done || lia.

Section operations.
Context {T : Type}.
Variable grow : N → N.
Implicit Types (p : stack_pool T) (x y h : N) (n : node_t T)
  (l : list (N * T)).

Lemma iter_neq_end h : h ≠ 0 → iter_neq (Iterator h) (end_it 0) = true.
Proof.
  intros. unfold iter_neq, iter_eq, end_it, end_. simpl.
  by destruct (N.eqb_spec h 0).
Qed.

Lemma pop_sentinel p : pop p 0 = Done (p, 0).
Proof. reflexivity. Qed.

Lemma pop_node p x n :
  x ≠ 0 → node p x = Done n →
  pop p x = Done (set_free_nodes (upd p x (Node (n_value n) (free_nodes p))) x,
                  n_next n).
Proof.
  intros Hx Hn. unfold pop, free_node. rewrite (empty_false x Hx). simpl.
  rewrite (next_Done _ _ _ Hn). simpl.
  by rewrite (set_next_Done _ _ _ _ Hn).
Qed.

Lemma push_recycle p val head n :
  free_nodes p ≠ 0 → node p (free_nodes p) = Done n →
  _push grow p val head =
    Done (set_free_nodes (upd p (free_nodes p) (Node val head)) (n_next n),
          free_nodes p).
Proof.
  intros Hf Hn. unfold _push. rewrite (empty_false _ Hf). simpl.
  rewrite (next_Done _ _ _ Hn). simpl.
  assert (Hn1 : node (set_free_nodes p (n_next n)) (free_nodes p) = Done n)
    by done.
  rewrite (set_value_Done _ _ _ _ Hn1). simpl.
  pose proof (node_upd_eq _ _ _ (Node val (n_next n)) Hn1) as Hn2.
  rewrite (set_next_Done _ _ _ _ Hn2). simpl.
  by rewrite upd_upd.
Qed.

Lemma push_append p val head :
  free_nodes p = 0 →
  _push grow p val head =
    Done (StackPool (vec.push_back grow (pool p) (Node val head)) 0,
          vec.size (pool p) + 1).
Proof.
  intros Hf. unfold _push. rewrite Hf. simpl. do 3 f_equal.
  unfold vec.size. simpl. rewrite length_app. simpl. lia.
Qed.

Lemma free_stack_loop_chain p l x n t vt fuel :
  chain p x (l ++ [(t, vt)]) → node p x = Done n →
  free_stack_loop fuel p (Iterator (n_next n)) x =
    if decide (length l ≤ fuel)%nat then Done t else OutOfFuel.
Proof.
  revert x n fuel. induction l as [|[y w] l IH]; simpl; intros x n fuel Hl Hn.
  - apply chain_cons_inv in Hl as (-> & _ & n' & Hn' & _ & Hl).
    rewrite Hn in Hn'. injection Hn' as <-. apply chain_nil_inv in Hl.
    rewrite Hl. destruct fuel; solve_fuel.
  - apply chain_cons_inv in Hl as (-> & _ & n' & Hn' & _ & Hl).
    rewrite Hn in Hn'. injection Hn' as <-.
    assert (∃ n', n_next n ≠ 0 ∧ node p (n_next n) = Done n')
      as (n' & Hz & Hn').
    { destruct l as [|[z u] l']; simpl in Hl;
        apply chain_cons_inv in Hl as (E & ? & n' & ? & _);
        rewrite <- E in *; eauto. }
    destruct fuel as [|fuel]; simpl; rewrite (iter_neq_end _ Hz);
      [solve_fuel |].
    rewrite (next_Done _ _ _ Hn). simpl. unfold incr_post, incr. simpl.
    rewrite (next_Done _ _ _ Hn'). simpl.
    rewrite (IH _ _ _ Hl Hn').
    solve_fuel.
Qed.

Lemma free_stack_chain p x l t vt fuel :
  chain p x (l ++ [(t, vt)]) →
  free_stack fuel p x =
    if decide (length l ≤ fuel)%nat
    then Done (set_free_nodes (upd p t (Node vt (free_nodes p))) x, 0)
    else OutOfFuel.
Proof.
  intros Hl.
  assert (∃ n, node p x = Done n) as [n Hn].
  { destruct l as [|[y w] l]; simpl in Hl;
      apply chain_cons_inv in Hl as (-> & _ & n & ? & _); eauto. }
  unfold free_stack. rewrite (next_Done _ _ _ Hn). simpl.
  rewrite (free_stack_loop_chain _ _ _ _ _ _ _ Hl Hn).
  case_decide; [| done]. simpl.
  destruct (chain_last_node _ _ _ _ _ Hl) as (nt & Hnt & <- & _).
  by rewrite (set_next_Done _ _ _ _ Hnt).
Qed.

Lemma print_stack_chain p h l fuel :
  chain p h l →
  print_stack fuel p h =
    if decide (length l ≤ fuel)%nat then Done l.*2 else OutOfFuel.
Proof.
  unfold print_stack, begin_. intros Hl. revert fuel.
  induction Hl as [|h n l Hh Hn _ IH]; intros fuel.
  - destruct fuel; solve_fuel.
  - destruct fuel as [|fuel]; simpl; rewrite (iter_neq_end _ Hh);
      [solve_fuel |].
    unfold deref, incr_post, incr. simpl.
    rewrite (value_Done _ _ _ Hn), (next_Done _ _ _ Hn). simpl.
    rewrite IH.
    solve_fuel.
Qed.
End operations.

(** ** The loops of first_impl.cpp

    Their test forms [end(0)], which is [&pool[SIZE_MAX]]: no storage
    whose size a [std::size_t] can hold has that subscript. *)

Section first_impl_facts.
Context {T : Type}.
Variable node_size : N.
Implicit Types (p : stack_pool T) (x y h : N) (n : node_t T)
  (l : list (N * T)).

Lemma node_sentinel p :
  vec.size (pool p) ≤ SIZE_MAX → node p 0 = OutOfRange SIZE_MAX.
Proof.
  intros Hsize. unfold node, vec.get. change (sub1 0) with SIZE_MAX.
  by destruct (N.ltb_spec SIZE_MAX (vec.size (pool p))); [lia |].
Qed.

Lemma first_impl_end_it p x :
  vec.size (pool p) ≤ SIZE_MAX → FirstImpl.end_it p x = OutOfRange SIZE_MAX.
Proof.
  intros Hsize. unfold FirstImpl.end_it, FirstImpl.node_ptr, end_.
  by rewrite (node_sentinel p Hsize).
Qed.

Lemma first_impl_free_stack_loop p fuel it x :
  vec.size (pool p) ≤ SIZE_MAX →
  FirstImpl.free_stack_loop node_size fuel p it x = OutOfRange SIZE_MAX.
Proof.
  intros Hsize. destruct fuel; simpl; by rewrite (first_impl_end_it p 0 Hsize).
Qed.

Lemma first_impl_print_loop p fuel it :
  vec.size (pool p) ≤ SIZE_MAX →
  FirstImpl.print_loop node_size fuel p it = OutOfRange SIZE_MAX.
Proof.
  intros Hsize. destruct fuel; simpl; by rewrite (first_impl_end_it p 0 Hsize).
Qed.

(** What [free_stack] and [print_stack] come to: the subscripts of
    [next(x)] and of [begin], if they are in range, and then [end(0)]. *)
Lemma first_impl_free_stack_eq p fuel x :
  vec.size (pool p) ≤ SIZE_MAX →
  FirstImpl.free_stack node_size fuel p x =
    (n ← node p x; node p (n_next n);; OutOfRange SIZE_MAX).
Proof.
  intros Hsize. unfold FirstImpl.free_stack, next.
  destruct (node p x) as [n| |]; simpl; try done.
  unfold FirstImpl.begin_, FirstImpl.node_ptr.
  destruct (node p (n_next n)) as [n'| |]; simpl; try done.
  by rewrite (first_impl_free_stack_loop p fuel _ x Hsize).
Qed.

Lemma first_impl_print_stack_eq p fuel x :
  vec.size (pool p) ≤ SIZE_MAX →
  FirstImpl.print_stack node_size fuel p x =
    (node p x;; OutOfRange SIZE_MAX).
Proof.
  intros Hsize. unfold FirstImpl.print_stack, FirstImpl.begin_, FirstImpl.node_ptr.
  destruct (node p x) as [n| |]; simpl; try done.
  by rewrite (first_impl_print_loop p fuel _ Hsize).
Qed.

Lemma first_impl_free_stack_chain p fuel x l :
  vec.size (pool p) ≤ SIZE_MAX → x ≠ 0 → chain p x l →
  FirstImpl.free_stack node_size fuel p x = OutOfRange SIZE_MAX.
Proof.
  intros Hsize Hx Hl. rewrite (first_impl_free_stack_eq p fuel x Hsize).
  destruct l as [|[y v] l]; [by apply chain_nil_inv in Hl |].
  apply chain_cons_inv in Hl as (-> & _ & n & Hn & _ & Hl).
  rewrite Hn. simpl. destruct l as [|[z w] l].
  - apply chain_nil_inv in Hl. by rewrite Hl, (node_sentinel p Hsize).
  - apply chain_cons_inv in Hl as (-> & _ & n' & Hn' & _ & _). by rewrite Hn'.
Qed.

End first_impl_facts.

(** ** Frames: which chains an update leaves alone *)

Section frames.
Context {T : Type}.
Variable grow : N → N.
Implicit Types (p : stack_pool T) (x y h : N) (n : node_t T)
  (l : list (N * T)) (ls : list (list (N * T))).

Lemma chain_set_free_nodes p f h l :
  chain p h l → chain (set_free_nodes p f) h l.
Proof. intros H. by eapply chain_frame. Qed.

Lemma chain_upd p x n' h l :
  chain p h l → x ≠ 0 → x ∉ l.*1 → chain (upd p x n') h l.
Proof.
  intros H Hx Hnin. eapply chain_frame; [done |]. intros y Hy.
  apply node_upd_ne; [done | by eapply chain_nonzero | by intros ->].
Qed.

Lemma node_push_back p f a x n :
  node p x = Done n →
  node (StackPool (vec.push_back grow (pool p) a) f) x = Done n.
Proof.
  intros [Hlt Hn]%node_Done. apply node_Done. unfold vec.size in *. simpl.
  rewrite length_app. split; [lia |]. by apply lookup_app_l_Some.
Qed.

Lemma node_push_back_new p f a :
  node (StackPool (vec.push_back grow (pool p) a) f) (vec.size (pool p) + 1)
  = Done a.
Proof.
  apply node_Done. rewrite sub1_pos by lia. unfold vec.size. simpl.
  rewrite length_app. simpl. split; [lia |].
  apply list_lookup_middle. lia.
Qed.

Lemma chain_push_back p f a h l :
  chain p h l → chain (StackPool (vec.push_back grow (pool p) a) f) h l.
Proof.
  induction 1 as [|h n l Hh Hn _ IH]; [constructor |].
  constructor; [done | by apply node_push_back | done].
Qed.

Lemma handles_push_back p f a :
  handles (StackPool (vec.push_back grow (pool p) a) f)
  = handles p ++ [vec.size (pool p) + 1].
Proof.
  unfold handles, vec.size. simpl. rewrite length_app. simpl.
  rewrite seq_app, fmap_app. simpl. do 2 f_equal. lia.
Qed.

Lemma chains_in_range p rs ls x :
  Forall2 (chain p) rs ls → x ∈ (concat ls).*1 →
  1 ≤ x ≤ vec.size (pool p).
Proof.
  induction 1 as [|r l rs ls Hl _ IH]; simpl.
  - by intros ?%elem_of_nil.
  - rewrite fmap_app. intros [?|?]%elem_of_app; [by eapply chain_in_range | auto].
Qed.

Lemma chains_frame p p' rs ls :
  Forall2 (chain p) rs ls →
  (∀ x, x ∈ (concat ls).*1 → node p' x = node p x) →
  Forall2 (chain p') rs ls.
Proof.
  induction 1 as [|r l rs ls Hl _ IH]; simpl; intros Hsame; constructor.
  - eapply chain_frame; [done |]. intros x Hx. apply Hsame.
    rewrite fmap_app. apply elem_of_app. by left.
  - apply IH. intros x Hx. apply Hsame. rewrite fmap_app.
    apply elem_of_app. by right.
Qed.

Lemma chains_set_free_nodes p f rs ls :
  Forall2 (chain p) rs ls → Forall2 (chain (set_free_nodes p f)) rs ls.
Proof. intros H. by eapply chains_frame. Qed.

Lemma chains_upd p x n' rs ls :
  Forall2 (chain p) rs ls → x ≠ 0 → x ∉ (concat ls).*1 →
  Forall2 (chain (upd p x n')) rs ls.
Proof.
  intros H Hx Hnin. eapply chains_frame; [done |]. intros y Hy.
  apply node_upd_ne; [done | | by intros ->].
  pose proof (chains_in_range _ _ _ _ H Hy). lia.
Qed.

Lemma chains_push_back p f a rs ls :
  Forall2 (chain p) rs ls →
  Forall2 (chain (StackPool (vec.push_back grow (pool p) a) f)) rs ls.
Proof. induction 1; constructor; [by apply chain_push_back | done]. Qed.

(** The nodes of all chains, with one chain singled out *)
Lemma nodes_split ls1 li ls2 lf :
  (concat (ls1 ++ li :: ls2) ++ lf).*1
  ≡ₚ (li ++ lf).*1 ++ (concat (ls1 ++ ls2)).*1.
Proof.
  rewrite !concat_app. simpl. rewrite !fmap_app.
  rewrite (Permutation_app_comm (concat ls1).*1).
  rewrite <- !(assoc_L (++)). apply Permutation_app_head.
  rewrite (Permutation_app_comm (concat ls2).*1).
  rewrite (Permutation_app_comm (concat ls1).*1 lf.*1).
  by rewrite <- (assoc_L (++)).
Qed.

Lemma chains_split p r1 head r2 ls :
  Forall2 (chain p) (r1 ++ head :: r2) ls →
  ∃ ls1 li ls2, ls = ls1 ++ li :: ls2 ∧ length r1 = length ls1 ∧
                chain p head li ∧ Forall2 (chain p) (r1 ++ r2) (ls1 ++ ls2).
Proof.
  intros (ls1 & ls' & H1 & H2 & ->)%Forall2_app_inv_l.
  apply Forall2_cons_inv_l in H2 as (li & ls2 & Hli & H2 & ->).
  exists ls1, li, ls2. split_and!; [done | by eapply Forall2_length | done |].
  by apply Forall2_app.
Qed.

Lemma chains_join p r1 h r2 ls1 li ls2 :
  Forall2 (chain p) (r1 ++ r2) (ls1 ++ ls2) → length r1 = length ls1 →
  chain p h li →
  Forall2 (chain p) (r1 ++ h :: r2) (ls1 ++ li :: ls2).
Proof.
  intros H Hlen Hli. apply Forall2_app_inv in H as [H1 H2]; [| done].
  apply Forall2_app; [done |]. by constructor.
Qed.
End frames.

(** ** Preservation of I2 *)

Section invariant.
Context {T : Type}.
Variable grow : N → N.
Implicit Types (p : stack_pool T) (x y h : N) (n : node_t T)
  (l : list (N * T)) (ls : list (list (N * T))).

Lemma I2_push p r1 head r2 val :
  I2 p (r1 ++ head :: r2) →
  ∃ p' h, _push grow p val head = Done (p', h) ∧ I2 p' (r1 ++ h :: r2).
Proof.
  intros (ls & lf & Hls & Hlf & Hperm).
  apply chains_split in Hls as (ls1 & li & ls2 & -> & Hlen & Hli & Hrest).
  rewrite nodes_split in Hperm.
  pose proof (NoDup_handles p) as Hnd. rewrite <- Hperm in Hnd.
  destruct lf as [|[f vf] lf].
  - apply chain_nil_inv in Hlf. do 2 eexists.
    split; [by apply push_append |].
    set (h := vec.size (pool p) + 1). set (nd := Node val head).
    exists (ls1 ++ ((h, n_value nd) :: li) :: ls2), []. split_and!.
    + apply chains_join; [by apply chains_push_back | done |].
      apply chain_step; [lia | apply node_push_back_new |].
      by apply chain_push_back.
    + constructor.
    + rewrite nodes_split, handles_push_back, <- Hperm. simpl.
      apply Permutation_cons_append.
  - apply chain_cons_inv in Hlf as (Hf & Hf0 & n & Hn & <- & Hlf).
    rewrite fmap_app in Hnd. simpl in Hnd.
    apply NoDup_app in Hnd as (Hnd & Hdisj & _).
    apply NoDup_app in Hnd as (_ & Hdisj' & [Hflf _]%NoDup_cons).
    assert (Hfli : f ∉ li.*1) by (intros Hin; apply (Hdisj' _ Hin); left).
    assert (Hfo : f ∉ (concat (ls1 ++ ls2)).*1).
    { apply Hdisj, elem_of_app. right. left. }
    do 2 eexists. split; [apply push_recycle; by rewrite Hf |].
    rewrite Hf. set (nd := Node val head).
    exists (ls1 ++ ((f, n_value nd) :: li) :: ls2), lf. split_and!.
    + apply chains_join; [| done |].
      * by apply chains_set_free_nodes, chains_upd.
      * apply chain_set_free_nodes, chain_step; [done | by eapply node_upd_eq |].
        by apply chain_upd.
    + by apply chain_set_free_nodes, chain_upd.
    + rewrite nodes_split, handles_set_free_nodes, handles_upd, <- Hperm.
      apply Permutation_app_tail. rewrite !fmap_app, !fmap_cons.
      apply (Permutation_middle li.*1 lf.*1 f).
Qed.

Lemma I2_pop p r1 head r2 :
  I2 p (r1 ++ head :: r2) →
  ∃ p' h, pop p head = Done (p', h) ∧ I2 p' (r1 ++ h :: r2).
Proof.
  intros HI. destruct (decide (head = 0)) as [->|Hh].
  { exists p, 0. by rewrite pop_sentinel. }
  destruct HI as (ls & lf & Hls & Hlf & Hperm).
  apply chains_split in Hls as (ls1 & li & ls2 & -> & Hlen & Hli & Hrest).
  rewrite nodes_split in Hperm.
  pose proof (NoDup_handles p) as Hnd. rewrite <- Hperm in Hnd.
  destruct li as [|[x v] li]; [by apply chain_nil_inv in Hli |].
  apply chain_cons_inv in Hli as (-> & _ & n & Hn & <- & Hli).
  rewrite fmap_app in Hnd. simpl in Hnd.
  apply NoDup_cons in Hnd as [Hx _].
  apply not_elem_of_app in Hx as [Hx Hxo].
  apply not_elem_of_app in Hx as [Hxli Hxlf].
  do 2 eexists. split; [by apply pop_node |].
  set (nd := Node (n_value n) (free_nodes p)).
  exists (ls1 ++ li :: ls2), ((x, n_value nd) :: lf). split_and!.
  - apply chains_join; [| done |].
    + by apply chains_set_free_nodes, chains_upd.
    + by apply chain_set_free_nodes, chain_upd.
  - apply chain_set_free_nodes, chain_step; [done | by eapply node_upd_eq |].
    by apply chain_upd.
  - rewrite nodes_split, handles_set_free_nodes, handles_upd, <- Hperm.
    apply Permutation_app_tail. rewrite !fmap_app, !fmap_cons.
    symmetry. apply (Permutation_middle li.*1 lf.*1 x).
Qed.

Lemma I2_free_stack p r1 head r2 :
  I2 p (r1 ++ head :: r2) → head ≠ 0 →
  ∃ p' k, (∀ fuel, (k ≤ fuel)%nat → free_stack fuel p head = Done (p', 0)) ∧
          I2 p' (r1 ++ 0 :: r2).
Proof.
  intros (ls & lf & Hls & Hlf & Hperm) Hh.
  apply chains_split in Hls as (ls1 & li & ls2 & -> & Hlen & Hli & Hrest).
  rewrite nodes_split in Hperm.
  pose proof (NoDup_handles p) as Hnd. rewrite <- Hperm in Hnd.
  destruct li as [|a li _] using rev_ind; [by apply chain_nil_inv in Hli |].
  destruct a as [t vt].
  rewrite fmap_app in Hnd.
  apply NoDup_app in Hnd as (Hnd & Hdisj & _).
  apply NoDup_app in Hnd as (_ & Hdisj' & _).
  assert (Ht : t ∈ (li ++ [(t, vt)]).*1).
  { rewrite fmap_app. apply elem_of_app. right. left. }
  assert (Ht0 : t ≠ 0) by exact (chain_nonzero _ _ _ _ Hli Ht).
  assert (Htlf : t ∉ lf.*1) by by apply Hdisj'.
  assert (Hto : t ∉ (concat (ls1 ++ ls2)).*1).
  { apply Hdisj, elem_of_app. by left. }
  eexists _, (length li). split.
  { intros fuel Hfuel. rewrite (free_stack_chain _ _ _ _ _ _ Hli).
    by case_decide. }
  exists (ls1 ++ [] :: ls2), (li ++ (t, vt) :: lf). split_and!.
  - apply chains_join; [| done | constructor].
    by apply chains_set_free_nodes, chains_upd.
  - by apply chain_set_free_nodes, chain_splice.
  - rewrite nodes_split, handles_set_free_nodes, handles_upd, <- Hperm.
    apply Permutation_app_tail. by rewrite <- (assoc_L (++)).
Qed.

(** Under I2 a caller-held handle heads a chain, and the free head, if
    there is one, is an allocated node outside that chain. *)
Lemma I2_free_head_apart p r1 head r2 :
  I2 p (r1 ++ head :: r2) →
  ∃ li, chain p head li ∧
        (free_nodes p ≠ 0 →
         (∃ n, node p (free_nodes p) = Done n) ∧ free_nodes p ∉ li.*1).
Proof.
  intros (ls & lf & Hls & Hlf & Hperm).
  apply chains_split in Hls as (ls1 & li & ls2 & -> & Hlen & Hli & Hrest).
  rewrite nodes_split in Hperm.
  pose proof (NoDup_handles p) as Hnd. rewrite <- Hperm in Hnd.
  exists li. split; [done |]. intros Hf.
  destruct lf as [|[f vf] lf]; [by apply chain_nil_inv in Hlf |].
  apply chain_cons_inv in Hlf as (-> & _ & n & Hn & _ & _).
  split; [by exists n |].
  rewrite fmap_app in Hnd. apply NoDup_app in Hnd as (Hnd & _ & _).
  apply NoDup_app in Hnd as (_ & Hdisj & _).
  intros Hin. apply (Hdisj _ Hin). left.
Qed.

Lemma I2_new_stack p roots : I2 p roots → I2 p (new_stack :: roots).
Proof.
  intros (ls & lf & Hls & Hlf & Hperm). exists ([] :: ls), lf.
  split_and!; [constructor; [constructor | done] | done | done].
Qed.

Lemma I2_make : I2 (make (T:=T)) [].
Proof. exists [], []. split_and!; constructor. Qed.
End invariant.

(** ** I2 read node by node, and I2 as a test *)

Section adequacy.
Context {T : Type}.
Implicit Types (p : stack_pool T) (x y h : N) (l lf : list (N * T))
  (L ls : list (list (N * T))).

Lemma elem_of_concat_lookup L x :
  x ∈ (concat L).*1 ↔ ∃ k l, L !! k = Some l ∧ x ∈ l.*1.
Proof.
  induction L as [|l0 L IH]; simpl.
  - split; [by intros ?%elem_of_nil | by intros (k & l & ? & _)].
  - rewrite fmap_app, elem_of_app, IH. split.
    + intros [?|(k & l & ? & ?)]; [by exists 0%nat, l0 | by exists (S k), l].
    + intros ([|k] & l & Hk & ?); simpl in Hk.
      * injection Hk as ->. by left.
      * right. by exists k, l.
Qed.

Lemma NoDup_concat_lookup L :
  NoDup (concat L).*1 ↔
  (∀ l, l ∈ L → NoDup l.*1) ∧
  (∀ k1 k2 l1 l2 x, L !! k1 = Some l1 → L !! k2 = Some l2 →
                    x ∈ l1.*1 → x ∈ l2.*1 → k1 = k2).
Proof.
  induction L as [|l0 L IH]; simpl.
  - split; [| constructor]. intros _.
    split; [by intros l ?%elem_of_nil | by intros k1 k2 l1 l2 x ?].
  - rewrite fmap_app, NoDup_app, IH. split.
    + intros (Hl0 & Hdisj & Hnd & Huniq). split.
      * intros l [->|?]%elem_of_cons; auto.
      * intros [|k1] [|k2] l1 l2 x H1 H2 Hx1 Hx2; simpl in H1, H2.
        -- done.
        -- injection H1 as ->. exfalso. apply (Hdisj _ Hx1).
           apply elem_of_concat_lookup. by exists k2, l2.
        -- injection H2 as ->. exfalso. apply (Hdisj _ Hx2).
           apply elem_of_concat_lookup. by exists k1, l1.
        -- f_equal. by eapply Huniq.
    + intros [Hnd Huniq]. split_and!.
      * apply Hnd. left.
      * intros x Hx (k & l & Hk & Hxl)%elem_of_concat_lookup.
        by specialize (Huniq 0%nat (S k) l0 l x eq_refl Hk Hx Hxl).
      * intros l ?. apply Hnd. by right.
      * intros k1 k2 l1 l2 x H1 H2 Hx1 Hx2.
        by injection (Huniq (S k1) (S k2) l1 l2 x H1 H2 Hx1 Hx2).
Qed.

(** I2 in the words of the specification: every allocated node is on the
    chain of exactly one root, the roots being the caller-held handles,
    numbered from [0], and the free head, numbered [length roots]. *)
Lemma I2_exactly_one p roots :
  I2 p roots ↔
  ∃ ls lf, Forall2 (chain p) roots ls ∧ chain p (free_nodes p) lf ∧
    ∀ x, 1 ≤ x ≤ vec.size (pool p) →
      ∃ k, (∃ l, (ls ++ [lf]) !! k = Some l ∧ x ∈ l.*1) ∧
           ∀ k', (∃ l, (ls ++ [lf]) !! k' = Some l ∧ x ∈ l.*1) → k' = k.
Proof.
  assert (Hcat : ∀ ls lf, concat ls ++ lf = concat (ls ++ [lf])).
  { intros ls lf. rewrite concat_app. simpl. by rewrite (right_id_L [] (++)). }
  split; intros (ls & lf & Hls & Hlf & H); exists ls, lf;
    (split; [done |]); (split; [done |]); rewrite Hcat in *.
  - intros x Hx%elem_of_handles. rewrite <- H in Hx.
    apply elem_of_concat_lookup in Hx as (k & l & Hk & Hxl).
    exists k. split; [by exists l |]. intros k' (l' & Hk' & Hxl').
    pose proof (NoDup_handles p) as Hnd. rewrite <- H in Hnd.
    apply NoDup_concat_lookup in Hnd as [_ Huniq]. by eapply Huniq.
  - assert (Hall : ∀ l, l ∈ ls ++ [lf] → ∃ r, chain p r l).
    { intros l [Hl|Hl]%elem_of_app.
      - apply list_elem_of_lookup in Hl as [k Hk].
        destruct (Forall2_lookup_r _ _ _ _ _ Hls Hk) as (r & _ & ?). by exists r.
      - apply list_elem_of_singleton in Hl as ->. by eexists. }
    apply NoDup_Permutation; [| apply NoDup_handles |].
    + apply NoDup_concat_lookup. split.
      * intros l [r Hr]%Hall. by eapply chain_NoDup.
      * intros k1 k2 l1 l2 x H1 H2 Hx1 Hx2.
        assert (Hl1 : l1 ∈ ls ++ [lf]) by (apply list_elem_of_lookup; eauto).
        destruct (Hall _ Hl1) as [r Hr].
        destruct (H x (chain_in_range _ _ _ _ Hr Hx1)) as (k & _ & Huniq).
        rewrite (Huniq k1), (Huniq k2); [done | by exists l2 | by exists l1].
    + intros x. rewrite elem_of_handles, elem_of_concat_lookup. split.
      * intros (k & l & Hk & Hxl).
        assert (Hl : l ∈ ls ++ [lf]) by (apply list_elem_of_lookup; eauto).
        destruct (Hall _ Hl) as [r Hr]. by eapply chain_in_range.
      * intros Hx. destruct (H x Hx) as (k & (l & ? & ?) & _). by exists k, l.
Qed.

Lemma I2b_spec p roots : I2b p roots = true ↔ I2 p roots.
Proof.
  unfold I2b. split.
  - destruct (mapM _ roots) as [ls|] eqn:Hls; [| done].
    destruct (walk _ p (free_nodes p)) as [lf|] eqn:Hlf; [| done].
    intros H%bool_decide_eq_true. exists ls, lf. split_and!; [| | done].
    + apply mapM_Some_1 in Hls. eapply Forall2_impl; [done |].
      intros r l. apply walk_chain.
    + by eapply walk_chain.
  - intros (ls & lf & Hls & Hlf & H).
    rewrite (mapM_Some_2 _ roots ls).
    + rewrite (chain_walk _ _ _ _ Hlf (chain_length _ _ _ Hlf)).
      by apply bool_decide_eq_true.
    + eapply Forall2_impl; [done |]. intros r l Hr.
      apply chain_walk; [done | by eapply chain_length].
Qed.
End adequacy.

(** ** Pushing onto a chain, and pushing from a free list *)

Section pushing.
Context {T : Type}.
Variable grow : N → N.
Implicit Types (p : stack_pool T) (x y h : N) (n : node_t T)
  (l : list (N * T)) (vs : list T).

(** One push onto the chain of [head], when the free head (if any) is an
    allocated node outside that chain. *)
Lemma push_chain p head li val :
  chain p head li →
  (free_nodes p ≠ 0 →
   (∃ n, node p (free_nodes p) = Done n) ∧ free_nodes p ∉ li.*1) →
  ∃ p' h,
    _push grow p val head = Done (p', h) ∧
    node p' h = Done (Node val head) ∧
    chain p' h ((h, val) :: li) ∧ h ≠ 0 ∧ (h ∉ li.*1) ∧
    (∀ c l, chain p c l → h ∉ l.*1 → chain p' c l) ∧
    (free_nodes p = 0 →
     free_nodes p' = 0 ∧ h = vec.size (pool p) + 1) ∧
    (∀ n, free_nodes p ≠ 0 → node p (free_nodes p) = Done n →
     free_nodes p' = n_next n ∧ h = free_nodes p).
Proof.
  intros Hli Hfree. destruct (decide (free_nodes p = 0)) as [Hf|Hf].
  - do 2 eexists. split; [by apply push_append |].
    assert (Hnew : vec.size (pool p) + 1 ∉ li.*1).
    { intros Hin. pose proof (chain_in_range _ _ _ _ Hli Hin). lia. }
    split_and!; [apply node_push_back_new | | lia | done | | done | done].
    + apply (chain_step _ _ (Node val head)); [lia | apply node_push_back_new |].
      by apply chain_push_back.
    + intros c l Hc _. by apply chain_push_back.
  - destruct (Hfree Hf) as [[n Hn] Hnin].
    do 2 eexists. split; [by eapply push_recycle |].
    assert (Hnew : node (set_free_nodes (upd p (free_nodes p) (Node val head))
                           (n_next n)) (free_nodes p) = Done (Node val head)).
    { by eapply node_upd_eq. }
    split_and!; [done | | done | done | | done |].
    + apply (chain_step _ _ (Node val head)); [done | done |].
      by apply chain_set_free_nodes, chain_upd.
    + intros c l Hc Hnc. by apply chain_set_free_nodes, chain_upd.
    + intros n' _ Hn'. rewrite Hn in Hn'. by injection Hn' as <-.
Qed.

(** Pushing a list of values onto a chain, in a pool whose free list is a
    chain apart from it *)
Lemma push_all_chain p head li lf vs :
  chain p head li → chain p (free_nodes p) lf →
  (∀ y, y ∈ li.*1 → y ∉ lf.*1) →
  ∃ p' h li', push_all grow p vs head = Done (p', h) ∧
              chain p' h li' ∧ li'.*2 = rev vs ++ li.*2.
Proof.
  revert p head li lf.
  induction vs as [|v vs IH]; simpl; intros p head li lf Hli Hlf Hdisj.
  { by exists p, head, li. }
  assert (Hfree : free_nodes p ≠ 0 →
            (∃ n, node p (free_nodes p) = Done n) ∧ free_nodes p ∉ li.*1).
  { intros Hf. destruct lf as [|[f vf] lf]; [by apply chain_nil_inv in Hlf |].
    apply chain_cons_inv in Hlf as (-> & _ & n & Hn & _ & _).
    split; [by exists n |]. intros Hin. apply (Hdisj _ Hin). left. }
  destruct (push_chain p head li v Hli Hfree)
    as (p1 & h & Hpush & _ & Hch & _ & Hhl & Hframe & Hempty & Hrec).
  unfold push. rewrite Hpush. simpl.
  assert (∃ lf1, chain p1 (free_nodes p1) lf1 ∧
                 ∀ y, y ∈ ((h, v) :: li).*1 → y ∉ lf1.*1)
    as (lf1 & Hlf1 & Hdisj1).
  { destruct lf as [|[f vf] lf].
    - apply chain_nil_inv in Hlf. destruct (Hempty Hlf) as [-> _].
      exists []. split; [constructor |]. intros y _. apply not_elem_of_nil.
    - pose proof (chain_NoDup _ _ _ Hlf) as [Hflf _]%NoDup_cons.
      apply chain_cons_inv in Hlf as (Hf & Hf0 & n & Hn & _ & Hlf).
      rewrite <- Hf in Hf0, Hn. destruct (Hrec n Hf0 Hn) as [-> ->].
      rewrite Hf. exists lf. split; [apply Hframe; [done | by rewrite Hf] |].
      intros y [->|Hy]%elem_of_cons; [done |].
      intros Hin. apply (Hdisj _ Hy). by right. }
  destruct (IH p1 h _ lf1 Hch Hlf1 Hdisj1) as (p' & h' & li' & Hall & Hli' & E).
  exists p', h', li'. split_and!; [done .. |].
  rewrite E. simpl. by rewrite <- (assoc_L (++)).
Qed.

Lemma path_frame p p' h l e :
  path p h l e → (∀ x, x ∈ l.*1 → node p' x = node p x) → path p' h l e.
Proof.
  induction 1 as [|h n l e Hh Hn _ IH]; intros Hsame; [constructor |].
  constructor; [done | |].
  - rewrite Hsame; [done | left].
  - apply IH. intros x Hx. apply Hsame. by right.
Qed.

Lemma path_cons_inv p h x v l e :
  path p h ((x, v) :: l) e →
  h = x ∧ x ≠ 0 ∧ ∃ n, node p x = Done n ∧ n_value n = v ∧ path p (n_next n) l e.
Proof. inversion 1; subst. eauto 10. Qed.

Lemma path_nonzero p h l e x : path p h l e → x ∈ l.*1 → x ≠ 0.
Proof.
  induction 1 as [|h n l e Hh Hn _ IH]; simpl.
  - by intros ?%elem_of_nil.
  - intros [->|?]%elem_of_cons; auto.
Qed.

(** After the [next] of the last node [t] of a chain is set to [f], the
    chain is a path that ends in [f]. *)
Lemma chain_path_splice p h l t vt f :
  chain p h (l ++ [(t, vt)]) →
  path (upd p t (Node vt f)) h (l ++ [(t, vt)]) f.
Proof.
  intros Hl. pose proof (chain_NoDup _ _ _ Hl) as Hnd. revert h Hl Hnd.
  induction l as [|[x v] l IH]; simpl; intros h Hl Hnd.
  - apply chain_cons_inv in Hl as (-> & Hx & n & Hn & <- & _).
    apply (path_step _ t (Node (n_value n) f)); [done | by eapply node_upd_eq |].
    constructor.
  - apply chain_cons_inv in Hl as (-> & Hx & n & Hn & <- & Hl).
    apply NoDup_cons in Hnd as [Hx' Hnd].
    assert (Ht : t ∈ (l ++ [(t, vt)]).*1).
    { rewrite fmap_app. apply elem_of_app. right. left. }
    assert (t ≠ x) by (by intros ->).
    assert (t ≠ 0) by exact (chain_nonzero _ _ _ _ Hl Ht).
    apply path_step; [done | | by apply IH].
    by rewrite node_upd_ne.
Qed.

(** Pushes that find enough nodes on the free list leave the storage as
    large as it was. *)
Lemma push_all_recycles p vs head l e :
  path p (free_nodes p) l e → NoDup l.*1 → (length vs ≤ length l)%nat →
  ∃ p' h, push_all grow p vs head = Done (p', h) ∧
          vec.size (pool p') = vec.size (pool p) ∧
          capacity p' = capacity p.
Proof.
  revert p head l. induction vs as [|v vs IH]; simpl; intros p head l Hl Hnd Hlen.
  { by exists p, head. }
  destruct l as [|[f vf] l]; [simpl in Hlen; lia |].
  apply path_cons_inv in Hl as (Hf & Hf0 & n & Hn & _ & Hl).
  apply NoDup_cons in Hnd as [Hfl Hnd].
  unfold push. rewrite (push_recycle grow _ v head n); [| by rewrite Hf ..].
  simpl. rewrite Hf.
  set (p1 := set_free_nodes (upd p f (Node v head)) (n_next n)).
  destruct (IH p1 f l) as (p' & h & Hpush & Hsize & Hcap).
  - eapply (path_frame p); [done |]. intros y Hy.
    apply node_upd_ne; [done | by eapply path_nonzero | by intros ->].
  - done.
  - simpl in Hlen. lia.
  - exists p', h. split; [done |]. split.
    + rewrite Hsize. apply size_upd.
    + by rewrite Hcap.
Qed.
End pushing.

(** ** The properties of the specification *)

Section properties.
Context {T : Type}.
Variable grow : N → N.
Implicit Types (p : stack_pool T) (x y h : N) (n : node_t T)
  (l : list (N * T)) (vs : list T).

(** C1. [push(v, head)]: when the free list is not empty, its head node is
    taken off the free list, receives the value [v] and the next field
    [head], and its handle is returned, the storage keeping its size and
    capacity; otherwise a node [{v, head}] is appended and the new length of
    the storage is returned.  Hence the free list is last-in first-out: the
    node freed by a [pop], or heading a chain freed by [free_stack], is the
    one the next [push] returns, and the storage does not grow. *)
Theorem push_recycles_or_appends p val head :
  (∀ n, free_nodes p ≠ 0 → node p (free_nodes p) = Done n →
     ∃ p', push grow p val head = Done (p', free_nodes p) ∧
           p' = set_free_nodes (upd p (free_nodes p) (Node val head)) (n_next n) ∧
           node p' (free_nodes p) = Done (Node val head) ∧
           free_nodes p' = n_next n ∧
           (∀ y, y ≠ 0 → y ≠ free_nodes p → node p' y = node p y) ∧
           vec.size (pool p') = vec.size (pool p) ∧
           capacity p' = capacity p) ∧
  (free_nodes p = 0 →
     ∃ p', push grow p val head = Done (p', vec.size (pool p) + 1) ∧
           elems (pool p') = elems (pool p) ++ [Node val head] ∧
           node p' (vec.size (pool p) + 1) = Done (Node val head) ∧
           free_nodes p' = 0 ∧
           vec.size (pool p') = vec.size (pool p) + 1) ∧
  (∀ x n, x ≠ 0 → node p x = Done n →
     ∃ p1 h p2, pop p x = Done (p1, h) ∧
                push grow p1 val head = Done (p2, x) ∧
                vec.size (pool p2) = vec.size (pool p) ∧
                capacity p2 = capacity p) ∧
  (∀ x l fuel, x ≠ 0 → chain p x l → (length l ≤ fuel)%nat →
     ∃ p1 p2, free_stack fuel p x = Done (p1, 0) ∧
              push grow p1 val head = Done (p2, x) ∧
              vec.size (pool p2) = vec.size (pool p) ∧
              capacity p2 = capacity p).
Proof.
  split_and!.
  - intros n Hf Hn. eexists. split; [by apply push_recycle |].
    split_and!; [done | by eapply node_upd_eq | done | | apply size_upd | done].
    intros y Hy Hne. apply (node_upd_ne p); [done | done | congruence].
  - intros Hf. eexists. split; [by apply push_append |].
    split_and!; [done | apply node_push_back_new | done |].
    unfold vec.size. simpl. rewrite length_app. simpl. lia.
  - intros x n Hx Hn. rewrite (pop_node _ _ _ Hx Hn).
    set (p1 := set_free_nodes (upd p x (Node (n_value n) (free_nodes p))) x).
    assert (Hn1 : node p1 (free_nodes p1) = Done (Node (n_value n) (free_nodes p)))
      by by eapply node_upd_eq.
    exists p1, (n_next n). eexists. split; [done |].
    split; [by apply (push_recycle grow p1 val head _ Hx Hn1) |].
    unfold p1. by rewrite !size_recycled, !capacity_recycled.
  - intros x l fuel Hx Hl Hfuel.
    destruct l as [|a l _] using rev_ind; [by apply chain_nil_inv in Hl |].
    destruct a as [t vt]. rewrite length_app in Hfuel. simpl in Hfuel.
    rewrite (free_stack_chain _ _ _ _ _ _ Hl).
    case_decide; [| lia].
    set (p1 := set_free_nodes (upd p t (Node vt (free_nodes p))) x).
    assert (∃ n1, node p1 (free_nodes p1) = Done n1) as [n1 Hn1].
    { apply node_of_range. unfold p1. rewrite size_recycled. simpl free_nodes.
      eapply chain_in_range; [exact Hl |].
      destruct l as [|[? ?] ?]; simpl in Hl;
        apply chain_cons_inv in Hl as (-> & _); left. }
    exists p1. eexists. split; [done |].
    split; [by apply (push_recycle grow p1 val head _ Hx Hn1) |].
    unfold p1. by rewrite !size_recycled, !capacity_recycled.
Qed.

(** C2, as amended.  [pop] with the sentinel handle never changes the pool.
    In stack_pool.hpp and first_impl.cpp it returns [0]; in the variant with
    [check_index] the call is rejected: the message is written and the
    value returned is [1]. *)
Theorem pop_sentinel_variants p :
  pop p 0 = Done (p, 0) ∧
  FirstImpl.pop p 0 = Done (p, 0) ∧
  Validated.pop p 0 = (Done (p, 1), ["You provided an invalid index: 0"]).
Proof. done. Qed.

(** C3. [free_stack] on a non-empty chain [l ++ [t]] headed by [x] walks to
    the last node [t], rewrites only the next field of [t], which becomes
    the old free head, makes [x] the free head and returns the sentinel.
    From the new free head the whole chain is met before the old free head
    (and before the old free list, when there was one apart from the
    chain), so as many pushes as the chain has nodes leave the size and the
    capacity of the storage unchanged. *)
Theorem free_stack_splices p x l t vt fuel :
  chain p x (l ++ [(t, vt)]) → (length l ≤ fuel)%nat →
  let p' := set_free_nodes (upd p t (Node vt (free_nodes p))) x in
  (∃ n, node p x = Done n ∧
        free_stack_loop fuel p (begin_ (n_next n)) x = Done t) ∧
  free_stack fuel p x = Done (p', end_) ∧
  free_nodes p' = x ∧
  node p' t = Done (Node vt (free_nodes p)) ∧
  (∀ y, y ≠ 0 → y ≠ t → node p' y = node p y) ∧
  path p' (free_nodes p') (l ++ [(t, vt)]) (free_nodes p) ∧
  (∀ lf, chain p (free_nodes p) lf → t ∉ lf.*1 →
         chain p' (free_nodes p') (l ++ (t, vt) :: lf)) ∧
  (∀ vs head, length vs = length (l ++ [(t, vt)]) →
     ∃ p'' h, push_all grow p' vs head = Done (p'', h) ∧
              vec.size (pool p'') = vec.size (pool p) ∧
              capacity p'' = capacity p).
Proof.
  intros Hl Hfuel p'.
  destruct (chain_last_node _ _ _ _ _ Hl) as (nt & Hnt & Hvt & _).
  pose proof (chain_NoDup _ _ _ Hl) as Hnd.
  assert (Ht : t ∈ (l ++ [(t, vt)]).*1).
  { rewrite fmap_app. apply elem_of_app. right. left. }
  pose proof (chain_nonzero _ _ _ _ Hl Ht) as Ht0.
  assert (Hpath : path p' (free_nodes p') (l ++ [(t, vt)]) (free_nodes p)).
  { eapply path_frame; [by apply chain_path_splice | done]. }
  split_and!.
  - assert (∃ n, node p x = Done n) as [n Hn].
    { destruct l as [|[y w] l]; simpl in Hl;
        apply chain_cons_inv in Hl as (-> & _ & n & ? & _); eauto. }
    exists n. split; [done |].
    unfold begin_. rewrite (free_stack_loop_chain _ _ _ _ _ _ _ Hl Hn).
    by case_decide.
  - rewrite (free_stack_chain _ _ _ _ _ _ Hl). by case_decide.
  - done.
  - by eapply node_upd_eq.
  - intros y Hy Hne. apply (node_upd_ne p); [done | done | congruence].
  - done.
  - intros lf Hlf Htlf. by apply chain_set_free_nodes, chain_splice.
  - intros vs head Hlen.
    destruct (push_all_recycles grow p' vs head _ _ Hpath Hnd)
      as (p'' & h & Hpush & Hsize & Hcap); [lia |].
    exists p'', h. split; [done |].
    rewrite Hsize, Hcap. unfold p'.
    by rewrite size_recycled, capacity_recycled.
Qed.

(** C4. Each pool operation preserves I2.  The caller holds the handles
    [roots]; it starts a stack by pushing onto [new_stack()], or operates
    on one of its handles, [head], and puts the handle it is returned in
    the place of [head]; [free_stack] is called on a non-empty stack.  In
    the pool that results every allocated node, a node just appended
    included, is again on the chain of exactly one root. *)
Theorem I2_preserved p roots :
  I2 p roots →
  (∀ val, ∃ p' h, push grow p val new_stack = Done (p', h) ∧
                  I2 p' (h :: roots)) ∧
  ∀ r1 head r2, roots = r1 ++ head :: r2 →
    (∀ val, ∃ p' h, push grow p val head = Done (p', h) ∧
                    I2 p' (r1 ++ h :: r2)) ∧
    (∃ p' h, pop p head = Done (p', h) ∧ I2 p' (r1 ++ h :: r2)) ∧
    (head ≠ 0 →
     ∃ p' k, (∀ fuel, (k ≤ fuel)%nat →
                      free_stack fuel p head = Done (p', end_)) ∧
             I2 p' (r1 ++ end_ :: r2)).
Proof.
  intros HI. split.
  - intros val. apply (I2_push grow p [] new_stack roots val).
    by apply I2_new_stack.
  - intros r1 head r2 ->. split_and!.
    + intros val. by apply I2_push.
    + by apply I2_pop.
    + intros Hh. by apply I2_free_stack.
Qed.

(** C5. After [push(v, s)] on a stack [s] whose chain is [l], in a pool
    whose free head, if there is one, is an allocated node outside [l] (as
    I2 makes it, see [I2_free_head_apart]): the value at the handle
    returned is [v], and [pop] of that handle returns [s], whose chain and
    sequence of values are what they were. *)
Theorem pop_push_inverse p s l val :
  chain p s l →
  (free_nodes p ≠ 0 →
   (∃ n, node p (free_nodes p) = Done n) ∧ free_nodes p ∉ l.*1) →
  ∃ p1 h p2,
    push grow p val s = Done (p1, h) ∧
    value p1 h = Done val ∧
    pop p1 h = Done (p2, s) ∧
    chain p2 s l ∧
    ∀ fuel, print_stack fuel p2 s = print_stack fuel p s ∧
            ((length l ≤ fuel)%nat → print_stack fuel p2 s = Done l.*2).
Proof.
  intros Hl Hfree.
  destruct (push_chain grow p s l val Hl Hfree)
    as (p1 & h & Hpush & Hnode & Hch & Hh0 & Hhl & Hframe & _).
  exists p1, h. eexists. split; [done |].
  split; [by rewrite (value_Done _ _ _ Hnode) |].
  split; [by rewrite (pop_node _ _ _ Hh0 Hnode) |].
  assert (Hl2 : chain (set_free_nodes
                  (upd p1 h (Node (n_value (Node val s)) (free_nodes p1))) h) s l).
  { apply chain_set_free_nodes, chain_upd; [| done | done]. by apply Hframe. }
  split; [done |]. intros fuel.
  rewrite (print_stack_chain _ _ _ _ Hl2), (print_stack_chain _ _ _ _ Hl).
  split; [done |]. intros ?. by case_decide.
Qed.

(** C6. In a pool whose free list is a chain (an empty one in a pool just
    constructed), pushing the values [vs] in turn onto [new_stack()] gives a
    stack whose traversal from [begin] to [end] yields the [length vs]
    values in the reverse of the order they were pushed in. *)
Theorem push_all_reverse p lf vs :
  chain p (free_nodes p) lf →
  ∃ p' h, push_all grow p vs new_stack = Done (p', h) ∧
          ∀ fuel, (length vs ≤ fuel)%nat →
                  print_stack fuel p' h = Done (rev vs) ∧
                  length (rev vs) = length vs.
Proof.
  intros Hlf.
  destruct (push_all_chain grow p new_stack [] lf vs) as (p' & h & li & Hall & Hli & E).
  { constructor. }
  { done. }
  { by intros y ?%elem_of_nil. }
  exists p', h. split; [done |]. intros fuel Hfuel.
  simpl in E. rewrite (right_id_L [] (++)) in E.
  rewrite (print_stack_chain _ _ _ _ Hli), length_rev.
  assert (length li = length vs) as ->.
  { by rewrite <- (length_fmap snd li), E, length_rev. }
  case_decide; [| lia]. by rewrite E.
Qed.

(** C7, as amended.  In the variant with [check_index], the check made by
    [push] compares the handle with the sentinel and nothing else: no
    handle is below the sentinel, so the check passes for every head,
    nothing is written, and [push] does what the [push] of stack_pool.hpp
    does. *)
Theorem validated_push_unchecked p val head :
  Validated.check_index head Validated.method_push = inr tt ∧
  Validated.push grow p val head = (push grow p val head, []).
Proof.
  assert (E : Validated.check_index head Validated.method_push = inr tt).
  { unfold Validated.check_index, end_.
    by destruct (N.ltb_spec head 0); [lia |]. }
  split; [done |].
  unfold Validated.push, Validated._push. by rewrite E.
Qed.

(** C8. Two iterators are equal exactly when their handles are; the end
    iterator holds the sentinel, so [begin(0)] equals [end(x)] for every
    [x], and the traversal of a stack whose handle is [0] yields nothing,
    whatever the pool and the fuel. *)
Theorem iterator_equality :
  (∀ it1 it2, iter_eq it1 it2 = true ↔ stack_index it1 = stack_index it2) ∧
  (∀ it1 it2, iter_neq it1 it2 = negb (iter_eq it1 it2)) ∧
  (∀ x, stack_index (end_it x) = 0) ∧
  (∀ x, iter_eq (begin_ 0) (end_it x) = true) ∧
  (∀ p fuel, print_stack fuel p new_stack = Done []) ∧
  (∀ p, pop p new_stack = Done (p, 0) ∧ empty new_stack = true).
Proof.
  split_and!; try done.
  - intros it1 it2. unfold iter_eq. apply N.eqb_eq.
  - intros p fuel. by destruct fuel.
Qed.

(** C9, on the code.  After [stack_pool(n)] the capacity reported by
    stack_pool.hpp and by the variant with [check_index] is at least [n];
    the [capacity] of first_impl.cpp returns the size of the storage, which
    is [0] then. *)
Theorem capacity_after_construction (n : N) :
  n ≤ capacity (make_n n : stack_pool T) ∧
  n ≤ Validated.capacity (Validated.make_n n : stack_pool T) ∧
  FirstImpl.capacity (FirstImpl.make_n n : stack_pool T) = 0.
Proof.
  unfold capacity, Validated.capacity, FirstImpl.capacity, make_n,
    Validated.make_n, FirstImpl.make_n, vec.reserve, vec.capacity, vec.size.
  simpl. by destruct (N.ltb_spec 0 n); simpl; [| split_and!; [lia .. | done]].
Qed.

(** C10, on the code.  In stack_pool.hpp: on a handle [x] in [1 .. len]
    that heads a chain, [free_stack] never indexes the storage out of
    range, and returns once it has fuel for the length of the chain; on
    the sentinel its first step reads [next(0)], at position
    [sub1 0 = SIZE_MAX] of a storage that is not that large: the call is
    out of range, where [pop] returns [0].  In first_impl.cpp the call on
    the sentinel is out of range in the same way, but so is the call on
    every handle that heads a chain: the loop forms [end(0)], which is
    [&pool[SIZE_MAX]]. *)
Theorem free_stack_range p :
  (∀ x l, 1 ≤ x ≤ vec.size (pool p) → chain p x l →
     (∀ fuel i, free_stack fuel p x ≠ OutOfRange i) ∧
     (∀ fuel, (length l ≤ S fuel)%nat →
              ∃ p', free_stack fuel p x = Done (p', end_))) ∧
  (vec.size (pool p) ≤ SIZE_MAX →
     sub1 0 = SIZE_MAX ∧
     next p 0 = OutOfRange SIZE_MAX ∧
     ∀ fuel, free_stack fuel p 0 = OutOfRange SIZE_MAX) ∧
  pop p 0 = Done (p, 0) ∧
  (vec.size (pool p) ≤ SIZE_MAX →
     ∀ node_size fuel,
       FirstImpl.free_stack node_size fuel p 0 = OutOfRange SIZE_MAX ∧
       FirstImpl.end_it p 0 = OutOfRange SIZE_MAX ∧
       ∀ x l, 1 ≤ x ≤ vec.size (pool p) → chain p x l →
              FirstImpl.free_stack node_size fuel p x = OutOfRange SIZE_MAX) ∧
  FirstImpl.pop p 0 = Done (p, 0).
Proof.
  split_and!; [| | done | | done].
  - intros x l Hx Hl.
    destruct l as [|a l _] using rev_ind.
    { apply chain_nil_inv in Hl. lia. }
    destruct a as [t vt]. split.
    + intros fuel i. rewrite (free_stack_chain _ _ _ _ _ _ Hl).
      by case_decide.
    + intros fuel Hfuel. rewrite length_app in Hfuel. simpl in Hfuel.
      rewrite (free_stack_chain _ _ _ _ _ _ Hl).
      case_decide; [by eexists | lia].
  - intros Hsize.
    assert (E : next p 0 = OutOfRange SIZE_MAX).
    { unfold next, node, vec.get. change (sub1 0) with SIZE_MAX.
      by destruct (N.ltb_spec SIZE_MAX (vec.size (pool p))); [lia |]. }
    split_and!; [done | done |].
    intros fuel. unfold free_stack. by rewrite E.
  - intros Hsize node_size fuel. split_and!.
    + rewrite (first_impl_free_stack_eq node_size p fuel 0 Hsize).
      by rewrite (node_sentinel p Hsize).
    + by apply first_impl_end_it.
    + intros x l Hx Hl.
      apply (first_impl_free_stack_chain node_size p fuel x l Hsize); [lia | done].
Qed.
End properties.

(** ** The properties on the pools of the driver *)

Example p5_pushed : push_all grow_double p22 [3; 1; 4; 1; 5]%Z new_stack = Done (p5, 5).
Proof. reflexivity. Qed.

Example ps_reached :
  ('(p, l1) ← push_all grow_double p22 [3; 1]%Z new_stack;
   '(p, l2) ← push_all grow_double p [8; 9; 7]%Z new_stack;
   '(p, l2) ← pop p l2;
   mret (p, l1, l2)) = Done (ps, 2, 4).
Proof. reflexivity. Qed.

Example digits_printed :
  ('(p, l) ← push_all grow_double p22 digits new_stack; print_stack 11 p l)
  = Done [5; 3; 5; 6; 2; 9; 5; 1; 4; 1; 3]%Z.
Proof. reflexivity. Qed.

Example ps_I2 : I2b ps [2; 4] = true.
Proof. reflexivity. Qed.

(** A second stack in the same pool leaves the first as it was. *)
Example two_stacks :
  ('(p, l1) ← push_all grow_double p22 digits new_stack;
   '(p, l2) ← push_all grow_double p [8; 9; 7; 9; 3; 1; 1; 5; 9; 9; 7]%Z new_stack;
   s1 ← print_stack 11 p l1;
   s2 ← print_stack 11 p l2;
   mret (s1, s2, capacity p))
  = Done ([5; 3; 5; 6; 2; 9; 5; 1; 4; 1; 3]%Z,
          [7; 9; 9; 5; 1; 1; 3; 9; 7; 9; 8]%Z, 22).
Proof. reflexivity. Qed.

(** From the stack [5, 3], a [pop] and then [push(7, .)] use the same node. *)
Example pop_then_push :
  ('(p, l) ← push_all grow_double (make_n 2) [3; 5]%Z new_stack;
   '(p, l') ← pop p l;
   '(p, l'') ← push grow_double p 7%Z l';
   s ← print_stack 2 p l'';
   mret (l, l', l'', s, capacity p))
  = Done (2, 1, 2, [7; 3]%Z, 2).
Proof. reflexivity. Qed.

(** first_impl.cpp on the pools of the driver: a stack of one node is
    freed, a stack is traversed, and two node addresses [2^60] positions
    apart are compared, with nodes of 16 bytes. *)
Example first_impl_loops :
  ('(p, l) ← push grow_double (FirstImpl.make_n 22) 3%Z new_stack;
   FirstImpl.free_stack 16 1 p l) = OutOfRange SIZE_MAX ∧
  FirstImpl.free_stack 16 1 ps 4 = OutOfRange SIZE_MAX ∧
  FirstImpl.print_stack 16 2 ps 4 = OutOfRange SIZE_MAX ∧
  FirstImpl.print_stack 16 2 ps 7 = OutOfRange 6 ∧
  FirstImpl.iter_eq 16 (FirstImpl.Iterator (2 ^ 60 - 1))
                       (FirstImpl.Iterator SIZE_MAX) = true.
Proof. by vm_compute. Qed.

Example first_impl_capacity :
  FirstImpl.capacity (FirstImpl.make_n 22 : stack_pool Z) = 0 ∧
  capacity p22 = 22.
Proof. done. Qed.

Lemma p5_chain : chain p5 5 ([(5, 5%Z); (4, 1%Z); (3, 4%Z); (2, 1%Z)] ++ [(1, 3%Z)]).
Proof. by apply (walk_chain 5). Defined.

Lemma push_recycles_or_appends_witness :
  (free_nodes ps ≠ 0 ∧ node ps (free_nodes ps) = Done (Node 7%Z 0) ∧
   ∃ p', push grow_double ps 6%Z 4 = Done (p', 5) ∧
         node p' 5 = Done (Node 6%Z 4) ∧ free_nodes p' = 0 ∧
         vec.size (pool p') = 5 ∧ capacity p' = 22) ∧
  (free_nodes p5 = 0 ∧
   ∃ p', push grow_double p5 6%Z 5 = Done (p', 6) ∧
         vec.size (pool p') = 6) ∧
  (5 ≠ 0 ∧ node p5 5 = Done (Node 5%Z 4) ∧
   ∃ p1 h p2, pop p5 5 = Done (p1, h) ∧
              push grow_double p1 6%Z h = Done (p2, 5) ∧
              vec.size (pool p2) = 5) ∧
  (5 ≠ 0 ∧ chain p5 5 [(5, 5%Z); (4, 1%Z); (3, 4%Z); (2, 1%Z); (1, 3%Z)] ∧
   ∃ p1 p2, free_stack 5 p5 5 = Done (p1, 0) ∧
            push grow_double p1 6%Z 0 = Done (p2, 5) ∧
            vec.size (pool p2) = 5).
Proof.
  split_and!; try done; try exact p5_chain.
  - destruct (push_recycles_or_appends grow_double ps 6%Z 4) as (H & _).
    destruct (H (Node 7%Z 0)) as (p' & Hp & _ & Hn & Hf & _ & Hs & Hc);
      [done | reflexivity |].
    by exists p'.
  - destruct (push_recycles_or_appends grow_double p5 6%Z 5) as (_ & H & _).
    destruct H as (p' & Hp & _ & _ & _ & Hs); [done |].
    by exists p'.
  - destruct (push_recycles_or_appends grow_double p5 6%Z 4) as (_ & _ & H & _).
    destruct (H 5 (Node 5%Z 4)) as (p1 & h & p2 & Hpop & Hp & Hs & _);
      [done | reflexivity |].
    assert (h = 4) as -> by (by injection Hpop).
    by exists p1, 4, p2.
  - destruct (push_recycles_or_appends grow_double p5 6%Z 0) as (_ & _ & _ & H).
    destruct (H 5 _ 5%nat ltac:(done) p5_chain) as (p1 & p2 & Hf & Hp & Hs & _);
      [simpl; lia |].
    by exists p1, p2.
Defined.

Lemma pop_sentinel_validated_counterexample :
  Validated.pop p22 0 = (Done (p22, 1), ["You provided an invalid index: 0"])
  ∧ (Validated.pop p22 0).1 ≠ Done (p22, 0).
Proof. split; [reflexivity | discriminate]. Qed.

Lemma free_stack_splices_witness :
  chain p5 5 ([(5, 5%Z); (4, 1%Z); (3, 4%Z); (2, 1%Z)] ++ [(1, 3%Z)]) ∧
  (4 ≤ 4)%nat ∧
  free_stack 4 p5 5
  = Done (StackPool (Vector [Node 3 0; Node 1 1; Node 4 2; Node 1 3; Node 5 4]%Z 22) 5,
          0) ∧
  ∃ p'' h,
    ('(p', _) ← free_stack 4 p5 5; push_all grow_double p' [1; 2; 3; 4; 5]%Z 0)
    = Done (p'', h) ∧ vec.size (pool p'') = 5 ∧ capacity p'' = 22.
Proof.
  split; [exact p5_chain |]. split; [lia |].
  destruct (free_stack_splices grow_double p5 5 _ 1 3%Z 4%nat p5_chain)
    as (_ & Hfree & _ & _ & _ & _ & _ & Hpush); [simpl; lia |].
  split; [exact Hfree |].
  destruct (Hpush [1; 2; 3; 4; 5]%Z 0) as (p'' & h & H & Hs & Hc); [done |].
  exists p'', h. rewrite Hfree. by split.
Defined.

Lemma I2_preserved_witness :
  I2 ps [2; 4] ∧
  (∃ p' h, push grow_double ps 6%Z new_stack = Done (p', h) ∧
           I2 p' [h; 2; 4]) ∧
  (∃ p' h, push grow_double ps 6%Z 4 = Done (p', h) ∧ I2 p' [2; h]) ∧
  (∃ p' h, pop ps 4 = Done (p', h) ∧ I2 p' [2; h]) ∧
  (∃ p' k, (∀ fuel, (k ≤ fuel)%nat → free_stack fuel ps 4 = Done (p', 0)) ∧
           I2 p' [2; 0]).
Proof.
  assert (H : I2 ps [2; 4]) by (by apply I2b_spec).
  split; [exact H |].
  destruct (I2_preserved grow_double ps [2; 4] H) as (Hnew & Hop).
  split; [exact (Hnew 6%Z) |].
  destruct (Hop [2] 4 [] eq_refl) as (Hpush & Hpop & Hfree).
  split; [exact (Hpush 6%Z) |]. split; [exact Hpop |].
  by apply Hfree.
Defined.

Lemma pop_push_inverse_witness :
  chain ps 4 [(4, 9%Z); (3, 8%Z)] ∧
  (free_nodes ps ≠ 0 →
   (∃ n, node ps (free_nodes ps) = Done n) ∧
   free_nodes ps ∉ [(4, 9%Z); (3, 8%Z)].*1) ∧
  ∃ p1 h p2,
    push grow_double ps 6%Z 4 = Done (p1, h) ∧
    value p1 h = Done 6%Z ∧
    pop p1 h = Done (p2, 4) ∧
    chain p2 4 [(4, 9%Z); (3, 8%Z)] ∧
    print_stack 2 p2 4 = Done [9; 8]%Z.
Proof.
  assert (Hc : chain ps 4 [(4, 9%Z); (3, 8%Z)]) by (by apply (walk_chain 2)).
  assert (Hf : free_nodes ps ≠ 0 →
               (∃ n, node ps (free_nodes ps) = Done n) ∧
               free_nodes ps ∉ [(4, 9%Z); (3, 8%Z)].*1).
  { intros _. split; [by eexists |]. simpl.
    intros [?|[?|?%elem_of_nil]%elem_of_cons]%elem_of_cons; done. }
  split; [exact Hc |]. split; [exact Hf |].
  destruct (pop_push_inverse grow_double ps 4 _ 6%Z Hc Hf)
    as (p1 & h & p2 & Hpush & Hv & Hpop & Hc2 & Hprint).
  exists p1, h, p2. split_and!; [done .. |].
  apply (Hprint 2%nat). simpl. lia.
Defined.

Lemma push_all_reverse_witness :
  chain p22 (free_nodes p22) [] ∧
  ∃ p' h, push_all grow_double p22 digits new_stack = Done (p', h) ∧
          print_stack 11 p' h = Done [5; 3; 5; 6; 2; 9; 5; 1; 4; 1; 3]%Z.
Proof.
  assert (Hc : chain p22 (free_nodes p22) []) by constructor.
  split; [exact Hc |].
  destruct (push_all_reverse grow_double p22 [] digits Hc) as (p' & h & Hpush & Hprint).
  exists p', h. split; [exact Hpush |].
  apply (Hprint 11%nat). simpl. lia.
Defined.

Lemma validated_push_counterexample :
  5 ≠ 0 ∧ node p22 5 = OutOfRange 4 ∧
  Validated.push grow_double p22 7%Z 5
  = (Done (StackPool (Vector [Node 7%Z 5] 22) 0, 1), []) ∧
  StackPool (Vector [Node 7%Z 5] 22) 0 ≠ p22.
Proof. split_and!; [done | reflexivity | reflexivity | discriminate]. Qed.

Lemma free_stack_range_witness :
  (1 ≤ 5 ≤ vec.size (pool p5) ∧
   chain p5 5 ([(5, 5%Z); (4, 1%Z); (3, 4%Z); (2, 1%Z)] ++ [(1, 3%Z)]) ∧
   (∀ fuel i, free_stack fuel p5 5 ≠ OutOfRange i) ∧
   ∃ p', free_stack 4 p5 5 = Done (p', 0)) ∧
  (vec.size (pool p5) ≤ SIZE_MAX ∧
   free_stack 4 p5 0 = OutOfRange SIZE_MAX) ∧
  pop p5 0 = Done (p5, 0) ∧
  FirstImpl.free_stack 16 4 p5 0 = OutOfRange SIZE_MAX ∧
  FirstImpl.free_stack 16 4 p5 5 = OutOfRange SIZE_MAX.
Proof.
  assert (Hr : 1 ≤ 5 ≤ vec.size (pool p5)) by (by vm_compute).
  assert (Hs : vec.size (pool p5) ≤ SIZE_MAX) by (by vm_compute).
  destruct (free_stack_range p5) as (Hin & Hout & Hpop & Hfirst & _).
  destruct (Hin 5 _ Hr p5_chain) as [Hnever Hdone].
  destruct (Hout Hs) as (_ & _ & Hzero).
  destruct (Hfirst Hs 16 4%nat) as (Hf0 & _ & Hfx).
  split; [| split; [split; [exact Hs | apply Hzero] |]].
  - split; [exact Hr |]. split; [exact p5_chain |]. split; [exact Hnever |].
    apply Hdone. simpl. lia.
  - split; [exact Hpop |]. split; [exact Hf0 |].
    exact (Hfx 5 _ Hr p5_chain).
Defined.

(** ** Further properties of the operations *)

Section outcomes.
Context {T : Type}.
Variable grow : N → N.
Implicit Types (p : stack_pool T) (x y h : N) (n : node_t T)
  (l : list (N * T)) (vs : list T).

Lemma node_not_Done p x :
  x ≠ 0 → (∀ n, node p x ≠ Done n) → node p x = OutOfRange (x - 1).
Proof.
  intros Hx Hn. unfold node, vec.get in *. rewrite (sub1_pos x Hx) in *.
  destruct (x - 1 <? vec.size (pool p)); [| done].
  destruct (elems (pool p) !! N.to_nat (x - 1)) as [n|]; [| done].
  by destruct (Hn n).
Qed.

Lemma node_cases p x :
  x ≠ 0 → (∃ n, node p x = Done n) ∨ node p x = OutOfRange (x - 1).
Proof.
  intros Hx. destruct (node p x) as [n|i|] eqn:E; [left; by exists n | |].
  - right. rewrite <- E. apply node_not_Done; [done |]. intros n. by rewrite E.
  - exfalso. unfold node, vec.get in E.
    destruct (sub1 x <? vec.size (pool p)); [| done].
    by destruct (elems (pool p) !! N.to_nat (sub1 x)).
Qed.

Lemma upd_same p x n : node p x = Done n → upd p x n = p.
Proof.
  intros [_ Hn]%node_Done. destruct p as [[el cap] f]. unfold upd. simpl in *.
  by rewrite list_insert_id.
Qed.

(** X1. [push] reads and writes the node of the free head and nothing
    else: it never reads the node of [head].  It is out of range exactly
    when there is a free head that is not an allocated node, and then at
    that node's position. *)
Theorem push_outcome p val head :
  (free_nodes p = 0 →
   push grow p val head =
     Done (StackPool (vec.push_back grow (pool p) (Node val head)) 0,
           vec.size (pool p) + 1)) ∧
  (free_nodes p ≠ 0 →
   (∀ n, node p (free_nodes p) = Done n →
      push grow p val head =
        Done (set_free_nodes (upd p (free_nodes p) (Node val head)) (n_next n),
              free_nodes p)) ∧
   ((∀ n, node p (free_nodes p) ≠ Done n) →
      push grow p val head = OutOfRange (free_nodes p - 1))) ∧
  push grow p val head ≠ OutOfFuel.
Proof.
  split_and!.
  - apply push_append.
  - intros Hf. split.
    + intros n Hn. by apply push_recycle.
    + intros Hn. unfold push, _push. rewrite (empty_false _ Hf). simpl.
      unfold next. by rewrite (node_not_Done _ _ Hf Hn).
  - destruct (decide (free_nodes p = 0)) as [Hf|Hf].
    + unfold push. by rewrite (push_append grow p val head Hf).
    + destruct (node_cases p _ Hf) as [[n Hn]|Hn].
      * unfold push. by rewrite (push_recycle grow p val head n Hf Hn).
      * unfold push, _push. rewrite (empty_false _ Hf). simpl.
        unfold next. by rewrite Hn.
Qed.

(** X2. [pop] of a handle other than the sentinel is out of range exactly
    when the handle is not an allocated node; otherwise it returns the
    [next] of the node, whose next field becomes the old free head while
    the node becomes the free head.  Its value stays. *)
Theorem pop_outcome p x :
  x ≠ 0 →
  (∀ n, node p x = Done n →
     pop p x = Done (set_free_nodes (upd p x (Node (n_value n) (free_nodes p))) x,
                     n_next n)) ∧
  ((∀ n, node p x ≠ Done n) → pop p x = OutOfRange (x - 1)) ∧
  pop p x ≠ OutOfFuel.
Proof.
  intros Hx. split_and!.
  - intros n Hn. by apply pop_node.
  - intros Hn. unfold pop. rewrite (empty_false _ Hx). simpl.
    unfold next. by rewrite (node_not_Done _ _ Hx Hn).
  - destruct (node_cases p _ Hx) as [[n Hn]|Hn].
    + by rewrite (pop_node p x n Hx Hn).
    + unfold pop. rewrite (empty_false _ Hx). simpl. unfold next. by rewrite Hn.
Qed.

(** X3. Pushing back the value of the node that a [pop] has just removed,
    onto the handle that the [pop] returned, restores the pool: the same
    node is reused and every field of the pool is what it was. *)
Theorem pop_push_restores p x n :
  x ≠ 0 → node p x = Done n →
  ∃ p1, pop p x = Done (p1, n_next n) ∧
        push grow p1 (n_value n) (n_next n) = Done (p, x).
Proof.
  intros Hx Hn. eexists. split; [by apply pop_node |].
  set (p1 := set_free_nodes (upd p x (Node (n_value n) (free_nodes p))) x).
  assert (Hn1 : node p1 (free_nodes p1) = Done (Node (n_value n) (free_nodes p)))
    by by eapply node_upd_eq.
  unfold push. rewrite (push_recycle grow p1 _ _ _ Hx Hn1). do 2 f_equal.
  unfold p1. simpl. unfold set_free_nodes. simpl.
  rewrite list_insert_insert_eq.
  apply node_Done in Hn as [_ Hn]. destruct p as [[el cap] f]. simpl in *.
  destruct n as [v nx]. simpl. by rewrite list_insert_id.
Qed.
End outcomes.

(** ** Traversals *)

Section traversals.
Context {T : Type}.
Variable grow : N → N.
Implicit Types (p : stack_pool T) (x y h : N) (n : node_t T)
  (l : list (N * T)) (vs : list T).

Lemma iter_neq_begin h :
  iter_neq (begin_ h) (end_it 0) = negb (h =? 0).
Proof. reflexivity. Qed.

Lemma print_stack_Done fuel p h vs :
  print_stack fuel p h = Done vs →
  ∃ l, chain p h l ∧ l.*2 = vs ∧ (length l ≤ fuel)%nat.
Proof.
  unfold print_stack. revert h vs.
  induction fuel as [|fuel IH]; intros h vs; simpl; rewrite iter_neq_begin;
    destruct (N.eqb_spec h 0) as [->|Hh]; simpl; try done.
  - intros [= <-]. exists []. split_and!; [constructor | done | done].
  - intros [= <-]. exists []. split_and!; [constructor | done | simpl; lia].
  - unfold deref, incr_post, incr, value, next. simpl.
    destruct (node p h) as [n| |] eqn:Hn; simpl; try done.
    fold (begin_ (n_next n)).
    destruct (print_loop fuel p (begin_ (n_next n))) as [vs'| |] eqn:E;
      simpl; try done.
    intros [= <-]. destruct (IH _ _ E) as (l & Hl & <- & Hlen).
    exists ((h, n_value n) :: l).
    split_and!; [by constructor | done | simpl; lia].
Qed.

(** X4. The traversal of [print_stack] returns a list exactly when the
    handle heads a chain that the fuel covers, and the list is then the
    values of the chain from the top; on a handle whose links never reach
    the sentinel it returns for no fuel. *)
Theorem print_stack_iff fuel p h vs :
  print_stack fuel p h = Done vs ↔
  ∃ l, chain p h l ∧ l.*2 = vs ∧ (length l ≤ fuel)%nat.
Proof.
  split; [apply print_stack_Done |].
  intros (l & Hl & <- & Hlen). rewrite (print_stack_chain _ _ _ _ Hl).
  by case_decide.
Qed.

(** X5. A [push] puts its value in front of the traversal: on a stack
    whose chain is [l], in a pool whose free head, if any, is an allocated
    node outside [l], the traversal from the handle returned is the value
    pushed followed by the values of [l]. *)
Theorem push_traversal p s l val :
  chain p s l →
  (free_nodes p ≠ 0 →
   (∃ n, node p (free_nodes p) = Done n) ∧ free_nodes p ∉ l.*1) →
  ∃ p1 h, push grow p val s = Done (p1, h) ∧
          chain p1 h ((h, val) :: l) ∧
          ∀ fuel, (length l < fuel)%nat →
                  print_stack fuel p1 h = Done (val :: l.*2).
Proof.
  intros Hl Hfree.
  destruct (push_chain grow p s l val Hl Hfree)
    as (p1 & h & Hpush & _ & Hch & _).
  exists p1, h. split_and!; [done .. |]. intros fuel Hfuel.
  rewrite (print_stack_chain _ _ _ _ Hch). simpl. case_decide; [done | lia].
Qed.

(** X6. A [pop] removes the first element of the traversal: on a stack
    whose chain is [(x, v) :: l] it returns the handle of [l], whose
    traversal is the values of [l]; the node [x] becomes the free head,
    still holding [v], in front of the old free list when that is a chain
    without [x]. *)
Theorem pop_traversal p x v l :
  chain p x ((x, v) :: l) →
  ∃ p1 h, pop p x = Done (p1, h) ∧
          chain p1 h l ∧
          free_nodes p1 = x ∧
          value p1 x = Done v ∧
          next p1 x = Done (free_nodes p) ∧
          (∀ fuel, (length l ≤ fuel)%nat → print_stack fuel p1 h = Done l.*2) ∧
          (∀ lf, chain p (free_nodes p) lf → x ∉ lf.*1 →
                 chain p1 x ((x, v) :: lf)).
Proof.
  intros Hl. pose proof (chain_NoDup _ _ _ Hl) as [Hxl _]%NoDup_cons.
  apply chain_cons_inv in Hl as (_ & Hx & n & Hn & <- & Hl).
  set (nd := Node (n_value n) (free_nodes p)).
  assert (Hnd : node (set_free_nodes (upd p x nd) x) x = Done nd)
    by by eapply node_upd_eq.
  assert (Hl1 : chain (set_free_nodes (upd p x nd) x) (n_next n) l)
    by by apply chain_set_free_nodes, chain_upd.
  exists (set_free_nodes (upd p x nd) x), (n_next n).
  split; [by apply pop_node |].
  split_and!; [done | done | by rewrite (value_Done _ _ _ Hnd)
              | by rewrite (next_Done _ _ _ Hnd) | |].
  - intros fuel Hfuel. rewrite (print_stack_chain _ _ _ _ Hl1).
    by case_decide.
  - intros lf Hlf Hxlf. apply (chain_step _ x nd); [done | done |].
    by apply chain_set_free_nodes, chain_upd.
Qed.
End traversals.

(** ** When [free_stack] returns *)

Section free_stack_returns.
Context {T : Type}.
Implicit Types (p : stack_pool T) (x y h t : N) (n : node_t T)
  (l : list (N * T)).

Lemma free_stack_loop_Done fuel p x n t :
  x ≠ 0 → node p x = Done n →
  free_stack_loop fuel p (begin_ (n_next n)) x = Done t →
  ∃ l vt, chain p x (l ++ [(t, vt)]) ∧ (length l ≤ fuel)%nat.
Proof.
  revert x n. induction fuel as [|fuel IH]; intros x n Hx Hn; simpl;
    rewrite iter_neq_begin;
    destruct (N.eqb_spec (n_next n) 0) as [E|Hnx]; simpl; try done.
  - intros [= <-]. exists [], (n_value n). split; [| done].
    apply chain_step; [done | done |]. rewrite E. constructor.
  - intros [= <-]. exists [], (n_value n). split; [| simpl; lia].
    apply chain_step; [done | done |]. rewrite E. constructor.
  - rewrite (next_Done _ _ _ Hn). simpl. unfold incr_post, incr, next. simpl.
    destruct (node p (n_next n)) as [n'| |] eqn:Hn'; simpl; try done.
    fold (begin_ (n_next n')). intros Hloop.
    destruct (IH _ _ Hnx Hn' Hloop) as (l & vt & Hl & Hlen).
    exists ((x, n_value n) :: l), vt. split; [| simpl; lia].
    simpl. by apply chain_step.
Qed.

(** X7. In a storage whose size a [std::size_t] can hold, [free_stack]
    returns exactly when its handle heads a non-empty chain that the fuel
    covers; it then returns the sentinel and the pool in which the last
    node of the chain points to the old free head and the handle is the
    free head.  Hence it does not return on the sentinel, on a handle that
    is not allocated, or on a chain that runs into a cycle. *)
Theorem free_stack_iff fuel p x r :
  vec.size (pool p) ≤ SIZE_MAX →
  free_stack fuel p x = Done r ↔
  ∃ l t vt, chain p x (l ++ [(t, vt)]) ∧ (length l ≤ fuel)%nat ∧
            r = (set_free_nodes (upd p t (Node vt (free_nodes p))) x, end_).
Proof.
  intros Hsize. split.
  - destruct (decide (x = 0)) as [->|Hx].
    { unfold free_stack, next, node, vec.get. change (sub1 0) with SIZE_MAX.
      by destruct (N.ltb_spec SIZE_MAX (vec.size (pool p))); [lia |]. }
    unfold free_stack, next.
    destruct (node p x) as [n| |] eqn:Hn; simpl; try done.
    destruct (free_stack_loop fuel p (begin_ (n_next n)) x) as [t| |] eqn:E;
      simpl; try done.
    destruct (free_stack_loop_Done _ _ _ _ _ Hx Hn E) as (l & vt & Hl & Hlen).
    intros Hr. exists l, t, vt. split_and!; [done .. |].
    pose proof (free_stack_chain p x l t vt fuel Hl) as Hfs.
    unfold free_stack, next in Hfs. rewrite Hn in Hfs. simpl in Hfs.
    rewrite E in Hfs. simpl in Hfs. rewrite Hfs in Hr.
    case_decide; [by injection Hr as <- | lia].
  - intros (l & t & vt & Hl & Hlen & ->).
    rewrite (free_stack_chain _ _ _ _ _ _ Hl). by case_decide.
Qed.
End free_stack_returns.

(** ** Stacks that share a pool *)

Section sharing.
Context {T : Type}.
Variable grow : N → N.
Implicit Types (p : stack_pool T) (x y h o : N) (n : node_t T)
  (l li lf : list (N * T)).

(** Under I2 the chain of a held handle has no node in common with the
    chain of another held handle or with the free list. *)
Lemma I2_apart p r1 head r2 :
  I2 p (r1 ++ head :: r2) →
  ∃ li lf, chain p head li ∧ chain p (free_nodes p) lf ∧
    ∀ o l, o ∈ r1 ++ r2 → chain p o l →
           ∀ y, y ∈ l.*1 → (y ∉ li.*1) ∧ (y ∉ lf.*1).
Proof.
  intros (ls & lf & Hls & Hlf & Hperm).
  apply chains_split in Hls as (ls1 & li & ls2 & -> & Hlen & Hli & Hrest).
  rewrite nodes_split in Hperm.
  pose proof (NoDup_handles p) as Hnd. rewrite <- Hperm in Hnd.
  apply NoDup_app in Hnd as (_ & Hdisj & _).
  exists li, lf. split_and!; [done .. |]. intros o l Hr Hl y Hy.
  apply list_elem_of_lookup in Hr as [k Hk].
  destruct (Forall2_lookup_l _ _ _ _ _ Hrest Hk) as (l' & Hk' & Hl').
  rewrite (chain_det _ _ _ _ Hl Hl') in Hy.
  assert (Hyo : y ∈ (concat (ls1 ++ ls2)).*1).
  { apply elem_of_concat_lookup. by exists k, l'. }
  rewrite <- not_elem_of_app, <- fmap_app. intros Hin. by apply (Hdisj _ Hin).
Qed.

(** X8. No operation on one stack changes another: under I2, whatever
    [push], [pop] or [free_stack] does on the held handle [head], the chain
    of any other held handle [o], nodes and values, and so its traversal,
    is what it was. *)
Theorem other_stacks_untouched p r1 head r2 o l :
  I2 p (r1 ++ head :: r2) → o ∈ r1 ++ r2 → chain p o l →
  (∀ val, ∃ p' h, push grow p val head = Done (p', h) ∧ chain p' o l ∧
                  ∀ fuel, print_stack fuel p' o = print_stack fuel p o) ∧
  (∃ p' h, pop p head = Done (p', h) ∧ chain p' o l ∧
           ∀ fuel, print_stack fuel p' o = print_stack fuel p o) ∧
  (head ≠ 0 →
   ∃ p' k, (∀ fuel, (k ≤ fuel)%nat →
                    free_stack fuel p head = Done (p', end_)) ∧
           chain p' o l ∧
           ∀ fuel, print_stack fuel p' o = print_stack fuel p o).
Proof.
  intros HI Hr Hl.
  destruct (I2_apart _ _ _ _ HI) as (li & lf & Hli & Hlf & Hapart).
  specialize (Hapart o l Hr Hl).
  assert (Hprint : ∀ p', chain p' o l →
            ∀ fuel, print_stack fuel p' o = print_stack fuel p o).
  { intros p' Hl' fuel.
    by rewrite (print_stack_chain _ _ _ _ Hl'), (print_stack_chain _ _ _ _ Hl). }
  split_and!.
  - intros val. destruct lf as [|[f vf] lf].
    + apply chain_nil_inv in Hlf. do 2 eexists.
      split; [by apply push_append |].
      assert (chain (StackPool (vec.push_back grow (pool p) (Node val head)) 0) o l)
        by by apply chain_push_back.
      split; [done | by apply Hprint].
    + apply chain_cons_inv in Hlf as (Hf & Hf0 & n & Hn & _ & _).
      rewrite <- Hf in Hf0, Hn. do 2 eexists.
      split; [by apply push_recycle |].
      assert (chain (set_free_nodes (upd p (free_nodes p) (Node val head))
                       (n_next n)) o l).
      { apply chain_set_free_nodes, chain_upd; [done .. |].
        intros Hin. destruct (Hapart _ Hin) as [_ Hnf]. apply Hnf.
        rewrite Hf. left. }
      split; [done | by apply Hprint].
  - destruct li as [|[x v] li].
    + apply chain_nil_inv in Hli as ->. exists p, 0.
      split; [apply pop_sentinel | by split].
    + apply chain_cons_inv in Hli as (-> & Hx & n & Hn & _ & _).
      do 2 eexists. split; [by apply pop_node |].
      assert (chain (set_free_nodes
                (upd p x (Node (n_value n) (free_nodes p))) x) o l).
      { apply chain_set_free_nodes, chain_upd; [done .. |].
        intros Hin. destruct (Hapart _ Hin) as [Hnl _]. apply Hnl. left. }
      split; [done | by apply Hprint].
  - intros Hh.
    destruct li as [|[t vt] li _] using rev_ind;
      [by apply chain_nil_inv in Hli |].
    assert (Ht : t ∈ (li ++ [(t, vt)]).*1).
    { rewrite fmap_app. apply elem_of_app. right. left. }
    eexists _, (length li). split.
    { intros fuel Hfuel. rewrite (free_stack_chain _ _ _ _ _ _ Hli).
      by case_decide. }
    assert (chain (set_free_nodes
              (upd p t (Node vt (free_nodes p))) head) o l).
    { apply chain_set_free_nodes, chain_upd; [done | |].
      - exact (chain_nonzero _ _ _ _ Hli Ht).
      - intros Hin. by destruct (Hapart _ Hin) as [Hnl _]. }
    split; [done | by apply Hprint].
Qed.
End sharing.

(** ** What the operations leave in place *)

Section storage.
Context {T : Type}.
Variable grow : N → N.
Implicit Types (p q : stack_pool T) (x y h t : N) (n : node_t T)
  (l : list (N * T)).

Lemma set_next_inv p x y q :
  set_next p x y = Done q →
  ∃ n, node p x = Done n ∧ q = upd p x (Node (n_value n) y).
Proof.
  unfold set_next. destruct (node p x) as [n| |] eqn:Hn; simpl; try done.
  rewrite (set_node_Done _ _ _ _ Hn). intros [= <-]. by exists n.
Qed.

(** Rewriting a next field changes no value. *)
Lemma value_upd_next p x n f y :
  node p x = Done n → value (upd p x (Node (n_value n) f)) y = value p y.
Proof.
  intros [Hlt Hn]%node_Done. unfold value, node, vec.get, vec.size in *. simpl.
  rewrite length_insert.
  destruct (sub1 y <? N.of_nat (length (elems (pool p)))); [| done].
  destruct (decide (N.to_nat (sub1 x) = N.to_nat (sub1 y))) as [E|E].
  - rewrite <- E, Hn, list_lookup_insert_eq; [done | lia].
  - by rewrite list_lookup_insert_ne.
Qed.

Lemma pop_inv p x p' h :
  pop p x = Done (p', h) →
  (x = 0 ∧ p' = p ∧ h = 0) ∨
  (x ≠ 0 ∧ ∃ n, node p x = Done n ∧ h = n_next n ∧
     p' = set_free_nodes (upd p x (Node (n_value n) (free_nodes p))) x).
Proof.
  destruct (decide (x = 0)) as [->|Hx].
  - rewrite pop_sentinel. intros [= <- <-]. by left.
  - destruct (node_cases p x Hx) as [[n Hn]|Hn].
    + rewrite (pop_node _ _ _ Hx Hn). intros [= <- <-]. right. eauto.
    + unfold pop. rewrite (empty_false _ Hx). simpl. unfold next.
      by rewrite Hn.
Qed.

Lemma push_inv p val head p' h :
  push grow p val head = Done (p', h) →
  (free_nodes p = 0 ∧ h = vec.size (pool p) + 1 ∧
   p' = StackPool (vec.push_back grow (pool p) (Node val head)) 0) ∨
  (free_nodes p ≠ 0 ∧ h = free_nodes p ∧
   ∃ n, node p (free_nodes p) = Done n ∧
        p' = set_free_nodes (upd p (free_nodes p) (Node val head)) (n_next n)).
Proof.
  unfold push. destruct (decide (free_nodes p = 0)) as [Hf|Hf].
  - rewrite (push_append _ _ _ _ Hf). intros [= <- <-]. by left.
  - destruct (node_cases p _ Hf) as [[n Hn]|Hn].
    + rewrite (push_recycle _ _ _ _ _ Hf Hn). intros [= <- <-]. right. eauto.
    + unfold _push. rewrite (empty_false _ Hf). simpl. unfold next.
      by rewrite Hn.
Qed.

Lemma free_stack_inv fuel p x p' h :
  free_stack fuel p x = Done (p', h) →
  h = 0 ∧ ∃ t n, node p t = Done n ∧
    p' = set_free_nodes (upd p t (Node (n_value n) (free_nodes p))) x.
Proof.
  unfold free_stack.
  destruct (next p x) as [nx| |]; simpl; try done.
  destruct (free_stack_loop fuel p (begin_ nx) x) as [t| |]; simpl; try done.
  destruct (set_next p t (free_nodes p)) as [q| |] eqn:E; simpl; try done.
  intros [= <- <-]. apply set_next_inv in E as (n & Hn & ->).
  split; [done |]. by exists t, n.
Qed.

(** X9. The storage never shrinks and no node moves.  [pop] and
    [free_stack] keep the size and the capacity of the storage and every
    stored value: all they write is one next field and the free head.
    [push] writes one node only, the one whose handle it returns; it keeps
    size and capacity when it recycles, and otherwise makes the storage one
    node longer, with a capacity that is not smaller when the vector does
    not shrink on reallocation.  [reserve] changes the capacity only, to no
    less than was asked and no less than it was. *)
Theorem operations_keep_storage p :
  (∀ val head p' h, push grow p val head = Done (p', h) →
     (∀ y n, y ≠ 0 → y ≠ h → node p y = Done n → node p' y = Done n) ∧
     (free_nodes p ≠ 0 →
      vec.size (pool p') = vec.size (pool p) ∧ capacity p' = capacity p) ∧
     (free_nodes p = 0 →
      vec.size (pool p') = vec.size (pool p) + 1 ∧
      ((∀ k, k ≤ grow k) → capacity p ≤ capacity p'))) ∧
  (∀ x p' h, pop p x = Done (p', h) →
     vec.size (pool p') = vec.size (pool p) ∧ capacity p' = capacity p ∧
     (∀ y, value p' y = value p y) ∧
     (∀ y, y ≠ 0 → y ≠ x → node p' y = node p y)) ∧
  (∀ fuel x p' h, free_stack fuel p x = Done (p', h) →
     vec.size (pool p') = vec.size (pool p) ∧ capacity p' = capacity p ∧
     (∀ y, value p' y = value p y)) ∧
  (∀ k, elems (pool (reserve k p)) = elems (pool p) ∧
        free_nodes (reserve k p) = free_nodes p ∧
        k ≤ capacity (reserve k p) ∧ capacity p ≤ capacity (reserve k p)).
Proof.
  split_and!.
  - intros val head p' h [(Hf & -> & ->)|(Hf & -> & n & Hn & ->)]%push_inv.
    + split_and!; [| done |].
      * intros y n Hy _ Hn. by apply node_push_back.
      * intros _. split.
        -- unfold vec.size. simpl. rewrite length_app. simpl. lia.
        -- intros Hgrow. unfold capacity, vec.capacity, vec.push_back. simpl.
           destruct (N.eqb_spec (vec.size (pool p)) (vcap (pool p))) as [E|E];
             [| done].
           rewrite <- E at 1. apply Hgrow.
    + split_and!; [| by rewrite size_recycled | done].
      intros y n' Hy Hne Hn'. rewrite <- Hn'. by apply (node_upd_ne p).
  - intros x p' h [(-> & -> & ->)|(Hx & n & Hn & -> & ->)]%pop_inv; [done |].
    split_and!; [apply size_recycled | done | |].
    + intros y. by apply (value_upd_next p x n).
    + intros y Hy Hne. by apply (node_upd_ne p).
  - intros fuel x p' h [-> (t & n & Hn & ->)]%free_stack_inv.
    split_and!; [apply size_recycled | done |].
    intros y. by apply (value_upd_next p t n).
  - intros k. unfold reserve, capacity, vec.reserve, vec.capacity.
    destruct (N.ltb_spec (vcap (pool p)) k); simpl; split_and!; done || lia.
Qed.

(** X10. Assigning through [value(x)] (or through [*it]) changes the value
    of the node [x] and nothing else: every chain keeps its nodes in their
    order, with the new value at [x] if [x] is on it, and the free head is
    what it was. *)
Theorem value_write p x v n h l :
  x ≠ 0 → node p x = Done n → chain p h l →
  ∃ p', set_value p x v = Done p' ∧
        value p' x = Done v ∧
        next p' x = next p x ∧
        free_nodes p' = free_nodes p ∧
        chain p' h ((λ e, if e.1 =? x then (x, v) else e) <$> l).
Proof.
  intros Hx Hn Hl. exists (upd p x (Node v (n_next n))).
  pose proof (node_upd_eq _ _ _ (Node v (n_next n)) Hn) as Hn'.
  split_and!; [by apply set_value_Done | by rewrite (value_Done _ _ _ Hn')
              | by rewrite (next_Done _ _ _ Hn'), (next_Done _ _ _ Hn) | done |].
  induction Hl as [|h n0 l Hh Hn0 _ IH]; [constructor |].
  rewrite fmap_cons. simpl. destruct (N.eqb_spec h x) as [->|Hne].
  - rewrite Hn in Hn0. injection Hn0 as <-.
    by apply (chain_step _ x (Node v (n_next n))).
  - apply chain_step; [done | | done].
    rewrite node_upd_ne; done.
Qed.
End storage.

(** ** The variants *)

Section variants.
Context {T : Type}.
Variable grow : N → N.
Implicit Types (p : stack_pool T) (x y h : N) (n : node_t T)
  (l li lf : list (N * T)) (ls : list (list (N * T))).

(** X11. In a storage whose size a [std::size_t] can hold, the traversal
    of first_impl.cpp returns on no handle and for no fuel: it subscripts
    the storage out of range, in [begin(x)] when [x] is not the handle of a
    node (the sentinel included) and else in the [end(0)] of its loop test,
    at [SIZE_MAX].  So it is out of range on every chain, where the
    traversal of the header returns the values of the chain. *)
Theorem first_impl_print_stack (node_size : N) fuel p h :
  vec.size (pool p) ≤ SIZE_MAX →
  (∃ i, FirstImpl.print_stack node_size fuel p h = OutOfRange i ∧
        (node p h = OutOfRange i ∨ i = SIZE_MAX ∧ ∃ n, node p h = Done n)) ∧
  (∀ l, chain p h l →
        FirstImpl.print_stack node_size fuel p h = OutOfRange SIZE_MAX ∧
        print_stack (length l) p h = Done l.*2).
Proof.
  intros Hsize. split.
  - rewrite (first_impl_print_stack_eq node_size p fuel h Hsize).
    destruct (decide (h = 0)) as [->|Hh].
    { exists SIZE_MAX. rewrite (node_sentinel p Hsize). split; [done | by left]. }
    destruct (node_cases p h Hh) as [[n Hn]|Hn]; rewrite Hn; simpl.
    + exists SIZE_MAX. split; [done |]. right. split; [done | by exists n].
    + exists (h - 1). split; [done | by left].
  - intros l Hl. split.
    + rewrite (first_impl_print_stack_eq node_size p fuel h Hsize).
      destruct Hl as [|h n l Hh Hn _]; [| by rewrite Hn].
      by rewrite (node_sentinel p Hsize).
    + rewrite (print_stack_chain _ _ _ _ Hl). by case_decide.
Qed.

(** X17. In a storage whose size a [std::size_t] can hold, the
    [free_stack] of first_impl.cpp returns on no handle and for no fuel: it
    subscripts the storage out of range, in [next(x)] when [x] is not the
    handle of a node, else in [begin(next(x))] when [next(x)] is not one,
    and else in the [end(0)] of its loop test, at [SIZE_MAX]. *)
Theorem first_impl_free_stack (node_size : N) p fuel x :
  vec.size (pool p) ≤ SIZE_MAX →
  ∃ i, FirstImpl.free_stack node_size fuel p x = OutOfRange i ∧
       (node p x = OutOfRange i ∨
        ∃ n, node p x = Done n ∧
             (node p (n_next n) = OutOfRange i ∨
              i = SIZE_MAX ∧ ∃ n', node p (n_next n) = Done n')).
Proof.
  intros Hsize. rewrite (first_impl_free_stack_eq node_size p fuel x Hsize).
  destruct (decide (x = 0)) as [->|Hx].
  { exists SIZE_MAX. rewrite (node_sentinel p Hsize). split; [done | by left]. }
  destruct (node_cases p x Hx) as [[n Hn]|Hn]; rewrite Hn; simpl.
  - destruct (decide (n_next n = 0)) as [E|Hnx].
    + exists SIZE_MAX. rewrite E, (node_sentinel p Hsize).
      split; [done |]. right. exists n. split; [done |]. left.
      by rewrite E, (node_sentinel p Hsize).
    + destruct (node_cases p _ Hnx) as [[n' Hn']|Hn']; rewrite Hn'; simpl.
      * exists SIZE_MAX. split; [done |]. right. exists n. split; [done |].
        right. split; [done | by exists n'].
      * exists (n_next n - 1). split; [done |]. right. exists n. by split; [| left].
  - exists (x - 1). split; [done | by left].
Qed.

(** X12. In the variant with [check_index], [pop] of a handle other than
    the sentinel passes the check, writes nothing and does what the [pop]
    of the header does. *)
Theorem validated_pop_agrees p x :
  x ≠ 0 →
  Validated.check_index x Validated.method_pop = inr tt ∧
  Validated.pop p x = (pop p x, []).
Proof.
  intros Hx.
  assert (E : Validated.check_index x Validated.method_pop = inr tt).
  { unfold Validated.check_index, end_.
    by destruct (N.leb_spec x 0); [lia |]. }
  split; [done |]. unfold Validated.pop. by rewrite E.
Qed.

Lemma chains_det p rs ls ls' :
  Forall2 (chain p) rs ls → Forall2 (chain p) rs ls' → ls = ls'.
Proof.
  intros H. revert ls'. induction H as [|r l rs ls Hl _ IH]; intros ls' H'.
  - by apply Forall2_nil_inv_l in H'.
  - apply Forall2_cons_inv_l in H' as (l' & ls'' & Hl' & H' & ->).
    f_equal; [by eapply chain_det | by apply IH].
Qed.

(** X13. The value [1] that the [pop] of the variant with [check_index]
    returns for an empty stack is not a handle of that stack: a caller that
    holds handles under I2 and puts the [1] in the place of its empty
    stack, as it does with the result of any other [pop], no longer holds
    handles under I2. *)
Theorem validated_pop_fallback p r1 r2 :
  I2 p (r1 ++ 0 :: r2) →
  ∃ h, (Validated.pop p 0).1 = Done (p, h) ∧ h = 1 ∧
       ¬ I2 p (r1 ++ h :: r2).
Proof.
  intros (ls & lf & Hls & Hlf & Hperm). exists 1. split_and!; [done .. |].
  intros (ls' & lf' & Hls' & Hlf' & Hperm').
  rewrite (chain_det _ _ _ _ Hlf' Hlf) in Hperm'.
  apply chains_split in Hls as (ls1 & li & ls2 & -> & Hlen & Hli & Hrest).
  apply chains_split in Hls' as (ls1' & li' & ls2' & -> & Hlen' & Hli' & Hrest').
  apply chain_zero in Hli as ->.
  pose proof (chains_det _ _ _ _ Hrest Hrest') as E.
  rewrite nodes_split in Hperm, Hperm'. rewrite <- E, <- Hperm in Hperm'.
  apply Permutation_length in Hperm'.
  rewrite !length_app, !length_fmap, !length_app in Hperm'.
  destruct li' as [|e li']; [by apply chain_nil_inv in Hli' |].
  simpl in Hperm'. lia.
Qed.
End variants.

(** ** Every state the caller can reach *)

Section reachability.
Context {T : Type}.
Variable grow : N → N.
Implicit Types (p : stack_pool T) (x y h : N) (n : node_t T)
  (l li lf : list (N * T)) (vs : list T).

Lemma I2_make_n k : I2 (make_n k : stack_pool T) [].
Proof.
  exists [], []. split_and!; [constructor | constructor |].
  unfold handles, make_n, vec.reserve, vec.empty. simpl.
  by destruct (0 <? k).
Qed.

Lemma I2_reserve p roots k : I2 p roots → I2 (reserve k p) roots.
Proof.
  intros (ls & lf & Hls & Hlf & Hperm).
  assert (Hsame : ∀ x, node (reserve k p) x = node p x).
  { intros x. unfold node, reserve, vec.reserve, vec.get, vec.size. simpl.
    by destruct (vcap (pool p) <? k). }
  assert (Hh : handles (reserve k p) = handles p).
  { unfold handles, reserve, vec.reserve. simpl.
    by destruct (vcap (pool p) <? k). }
  exists ls, lf. split_and!.
  - by eapply chains_frame.
  - change (free_nodes (reserve k p)) with (free_nodes p).
    by eapply chain_frame.
  - by rewrite Hh.
Qed.

(** X14. I2 holds in every state that the caller reaches from a
    constructor by [new_stack], [reserve], [push], [pop] and [free_stack],
    when it calls the last three on handles it holds and keeps the handle
    returned instead. *)
Theorem reachable_I2 p roots : reachable grow p roots → I2 p roots.
Proof.
  induction 1 as [|k|p roots _ IH|p roots k _ IH
                  |p r1 head r2 val p' h _ IH Hpush
                  |p r1 head r2 p' h _ IH Hpop
                  |p r1 head r2 fuel p' h _ IH Hh Hfree].
  - apply I2_make.
  - apply I2_make_n.
  - by apply I2_new_stack.
  - by apply I2_reserve.
  - destruct (I2_push grow p r1 head r2 val IH) as (p'' & h'' & E & HI).
    unfold push in Hpush. rewrite E in Hpush. by injection Hpush as <- <-.
  - destruct (I2_pop p r1 head r2 IH) as (p'' & h'' & E & HI).
    rewrite E in Hpop. by injection Hpop as <- <-.
  - destruct (I2_free_stack p r1 head r2 IH Hh) as (p'' & k & Hk & HI).
    destruct (free_stack_inv _ _ _ _ _ Hfree) as [-> _].
    destruct (I2_free_head_apart _ _ _ _ IH) as (li & Hli & _).
    destruct li as [|[t vt] li _] using rev_ind;
      [by apply chain_nil_inv in Hli |].
    pose proof (free_stack_chain p head li t vt) as Hfs.
    rewrite (Hfs fuel Hli) in Hfree.
    specialize (Hk (max k (length li)) ltac:(lia)).
    rewrite (Hfs _ Hli) in Hk.
    destruct (decide (length li ≤ fuel)%nat); [| done].
    destruct (decide (length li ≤ k `max` length li)%nat); [| lia].
    injection Hfree as <-. by injection Hk as <-.
Qed.

Lemma reachable_push_all p head r2 vs p' h :
  reachable grow p (head :: r2) →
  push_all grow p vs head = Done (p', h) →
  reachable grow p' (h :: r2).
Proof.
  revert p head. induction vs as [|v vs IH]; simpl; intros p head Hr.
  - by intros [= <- <-].
  - destruct (push grow p v head) as [[p1 h1]| |] eqn:E; simpl; try done.
    apply IH. by apply (reach_push grow p [] head r2 v p1 h1).
Qed.

(** Pushes that take their nodes from the path [l] at the free head build
    their stack out of these nodes, the first taken at the bottom. *)
Lemma push_all_path p head li l e vs :
  path p (free_nodes p) l e → NoDup l.*1 → chain p head li →
  (∀ y, y ∈ l.*1 → y ∉ li.*1) → length vs = length l →
  ∃ p' h, push_all grow p vs head = Done (p', h) ∧
          free_nodes p' = e ∧
          vec.size (pool p') = vec.size (pool p) ∧
          chain p' h (reverse (zip l.*1 vs) ++ li).
Proof.
  revert p head li l.
  induction vs as [|v vs IH]; intros p head li l Hl Hnd Hli Hdisj Hlen.
  { destruct l; [| done]. inversion Hl; subst. by exists p, head. }
  destruct l as [|[f vf] l]; [done |].
  apply path_cons_inv in Hl as (Hf & Hf0 & n & Hn & _ & Hl).
  apply NoDup_cons in Hnd as [Hfl Hnd].
  assert (Hfli : f ∉ li.*1) by (apply Hdisj; left).
  rewrite <- Hf in Hf0, Hn. simpl.
  unfold push. rewrite (push_recycle grow p v head n Hf0 Hn). simpl.
  rewrite Hf in *.
  set (p1 := set_free_nodes (upd p f (Node v head)) (n_next n)).
  assert (Hn1 : node p1 f = Done (Node v head)) by by eapply node_upd_eq.
  destruct (IH p1 f ((f, v) :: li) l) as (p' & h & Hall & He & Hsize & Hch).
  - eapply (path_frame p); [done |]. intros y Hy.
    apply node_upd_ne; [done | by eapply path_nonzero | by intros ->].
  - done.
  - apply (chain_step _ f (Node v head)); [done | done |].
    by apply chain_set_free_nodes, chain_upd.
  - intros y Hy [->|Hin]%elem_of_cons; [done |].
    apply (Hdisj y); [by right | done].
  - simpl in Hlen. lia.
  - exists p', h. split_and!; [done | done | |].
    + rewrite Hsize. apply size_recycled.
    + simpl. rewrite reverse_cons, <- (assoc_L (++)). exact Hch.
Qed.

(** X15. A stack built right after a [free_stack], by as many pushes onto
    [new_stack()] as the freed chain had nodes, is made of the nodes of the
    freed chain and of no other: taken from the top of the freed chain, so
    that the old top is the bottom of the new stack and the old bottom is
    its top.  The storage keeps its size and the free head is again what it
    was before the [free_stack]. *)
Theorem free_stack_then_rebuild p x l t vt fuel vs :
  chain p x (l ++ [(t, vt)]) → (length l ≤ fuel)%nat →
  length vs = S (length l) →
  ∃ p1 p2, free_stack fuel p x = Done (p1, end_) ∧
           push_all grow p1 vs new_stack = Done (p2, t) ∧
           free_nodes p2 = free_nodes p ∧
           vec.size (pool p2) = vec.size (pool p) ∧
           chain p2 t (reverse (zip (l ++ [(t, vt)]).*1 vs)) ∧
           ∀ k, (S (length l) ≤ k)%nat → print_stack k p2 t = Done (reverse vs).
Proof.
  intros Hl Hfuel Hlen.
  set (p1 := set_free_nodes (upd p t (Node vt (free_nodes p))) x).
  assert (Hpath : path p1 (free_nodes p1) (l ++ [(t, vt)]) (free_nodes p)).
  { eapply path_frame; [by apply chain_path_splice | done]. }
  destruct (push_all_path p1 new_stack [] _ _ vs Hpath)
    as (p2 & h & Hall & He & Hsize & Hch).
  { by eapply chain_NoDup. }
  { constructor. }
  { intros y _. apply not_elem_of_nil. }
  { rewrite length_app. simpl. lia. }
  rewrite (right_id_L [] (++)) in Hch.
  assert (Hzl : length (zip (l ++ [(t, vt)]).*1 vs) = S (length l)).
  { rewrite length_zip_with, length_fmap, length_app. simpl. lia. }
  assert (Hh : h = t).
  { rewrite fmap_app, zip_with_app_l in Hch. simpl in Hch.
    rewrite length_fmap in Hch.
    destruct (drop (length l) vs) as [|v' ?] eqn:Ed.
    - apply (f_equal length) in Ed. rewrite length_drop in Ed. simpl in Ed. lia.
    - simpl in Hch. rewrite reverse_app in Hch. simpl in Hch.
      by apply chain_cons_inv in Hch as [-> _]. }
  subst h. exists p1, p2. split_and!; [| done | done | | done |].
  - rewrite (free_stack_chain _ _ _ _ _ _ Hl). by case_decide.
  - rewrite Hsize. apply size_recycled.
  - intros k Hk. rewrite (print_stack_chain _ _ _ _ Hch).
    rewrite length_reverse, Hzl. case_decide; [| lia].
    rewrite fmap_reverse, snd_zip; [done |].
    rewrite length_fmap, length_app. simpl. lia.
Qed.
End reachability.

(** ** The algorithms of the driver over a stack *)

Section algorithms.
Context {T : Type}.
Variable lt : T → T → bool.
Implicit Types (p : stack_pool T) (x y h : N) (n : node_t T)
  (l : list (N * T)) (vs : list T).

Lemma max_element_loop_chain p fuel hl m h l x :
  deref p (begin_ hl) = Done m → chain p h l → (length l ≤ fuel)%nat →
  ∃ hr, max_element_loop lt fuel p (begin_ hl) (begin_ h) (end_it x)
        = Done (begin_ hr) ∧
        deref p (begin_ hr) = Done (foldl (keep_max lt) m l.*2) ∧
        (hr = hl ∨ hr ∈ l.*1).
Proof.
  intros Hm Hl. revert hl m fuel Hm.
  induction Hl as [|h n l Hh Hn _ IH]; intros hl m fuel Hm Hfuel.
  - exists hl. split_and!; [by destruct fuel | done | by left].
  - destruct fuel as [|fuel]; simpl in Hfuel; [lia |]. simpl.
    rewrite (iter_neq_end h Hh : iter_neq (begin_ h) (end_it x) = true), Hm.
    simpl.
    unfold deref at 1. simpl. rewrite (value_Done _ _ _ Hn). simpl.
    unfold incr. simpl. rewrite (next_Done _ _ _ Hn). simpl.
    fold (begin_ (n_next n)).
    destruct (lt m (n_value n)) eqn:E.
    + destruct (IH h (n_value n) fuel) as (hr & Hloop & Hd & Hin); [| lia |].
      { unfold deref. simpl. by rewrite (value_Done _ _ _ Hn). }
      exists hr. unfold keep_max at 2. rewrite E.
      split_and!; [done | done |]. right.
      destruct Hin as [->|Hin]; [left | by right].
    + destruct (IH hl m fuel Hm) as (hr & Hloop & Hd & Hin); [lia |].
      exists hr. unfold keep_max at 2. rewrite E.
      split_and!; [done | done |].
      destruct Hin as [->|Hin]; [by left | right; by right].
Qed.

Lemma min_element_loop_chain p fuel hl m h l x :
  deref p (begin_ hl) = Done m → chain p h l → (length l ≤ fuel)%nat →
  ∃ hr, min_element_loop lt fuel p (begin_ hl) (begin_ h) (end_it x)
        = Done (begin_ hr) ∧
        deref p (begin_ hr) = Done (foldl (keep_min lt) m l.*2) ∧
        (hr = hl ∨ hr ∈ l.*1).
Proof.
  intros Hm Hl. revert hl m fuel Hm.
  induction Hl as [|h n l Hh Hn _ IH]; intros hl m fuel Hm Hfuel.
  - exists hl. split_and!; [by destruct fuel | done | by left].
  - destruct fuel as [|fuel]; simpl in Hfuel; [lia |]. simpl.
    rewrite (iter_neq_end h Hh : iter_neq (begin_ h) (end_it x) = true), Hm.
    simpl.
    unfold deref at 1. simpl. rewrite (value_Done _ _ _ Hn). simpl.
    unfold incr. simpl. rewrite (next_Done _ _ _ Hn). simpl.
    fold (begin_ (n_next n)).
    destruct (lt (n_value n) m) eqn:E.
    + destruct (IH h (n_value n) fuel) as (hr & Hloop & Hd & Hin); [| lia |].
      { unfold deref. simpl. by rewrite (value_Done _ _ _ Hn). }
      exists hr. unfold keep_min at 2. rewrite E.
      split_and!; [done | done |]. right.
      destruct Hin as [->|Hin]; [left | by right].
    + destruct (IH hl m fuel Hm) as (hr & Hloop & Hd & Hin); [lia |].
      exists hr. unfold keep_min at 2. rewrite E.
      split_and!; [done | done |].
      destruct Hin as [->|Hin]; [by left | right; by right].
Qed.

(** On a chain [max_element] and [min_element] return an iterator to one of
    its nodes; the value there is the one kept by the comparisons, made
    from the top of the stack down. *)
Lemma element_on_chain p fuel h v l x :
  chain p h ((h, v) :: l) → (length l ≤ fuel)%nat →
  (∃ hr, max_element lt fuel p (begin_ h) (end_it x) = Done (begin_ hr) ∧
         deref p (begin_ hr) = Done (foldl (keep_max lt) v l.*2) ∧
         hr ∈ ((h, v) :: l).*1) ∧
  (∃ hr, min_element lt fuel p (begin_ h) (end_it x) = Done (begin_ hr) ∧
         deref p (begin_ hr) = Done (foldl (keep_min lt) v l.*2) ∧
         hr ∈ ((h, v) :: l).*1).
Proof.
  intros Hc Hfuel. apply chain_cons_inv in Hc as (_ & Hh & n & Hn & <- & Hl).
  assert (Hd : deref p (begin_ h) = Done (n_value n)).
  { unfold deref. simpl. by rewrite (value_Done _ _ _ Hn). }
  assert (Hne : iter_eq (begin_ h) (end_it x) = false).
  { unfold iter_eq. simpl. by destruct (N.eqb_spec h end_). }
  split.
  - destruct (max_element_loop_chain p fuel h _ _ l x Hd Hl Hfuel)
      as (hr & Hloop & Hv & Hin).
    exists hr. unfold max_element. rewrite Hne. unfold incr. simpl.
    rewrite (next_Done _ _ _ Hn). simpl.
    split_and!; [done | done |]. destruct Hin as [->|Hin]; [left | by right].
  - destruct (min_element_loop_chain p fuel h _ _ l x Hd Hl Hfuel)
      as (hr & Hloop & Hv & Hin).
    exists hr. unfold min_element. rewrite Hne. unfold incr. simpl.
    rewrite (next_Done _ _ _ Hn). simpl.
    split_and!; [done | done |]. destruct Hin as [->|Hin]; [left | by right].
Qed.
End algorithms.

Lemma keep_max_spec (v : Z) (vs : list Z) :
  foldl (keep_max Z.ltb) v vs ∈ v :: vs ∧
  ∀ w, w ∈ v :: vs → (w ≤ foldl (keep_max Z.ltb) v vs)%Z.
Proof.
  revert v. induction vs as [|a vs IH]; intros v; simpl.
  - split; [left |]. by intros w ->%list_elem_of_singleton.
  - destruct (IH (keep_max Z.ltb v a)) as [Hin Hmax]. unfold keep_max in *.
    destruct (Z.ltb_spec v a).
    + split; [by right |]. intros w [->|Hw]%elem_of_cons; [| by apply Hmax].
      assert (a ≤ foldl (λ a0 b, if (a0 <? b)%Z then b else a0) a vs)%Z
        by (apply Hmax; left). lia.
    + split.
      * apply elem_of_cons in Hin as [->|Hin]; [left | by right; right].
      * intros w [->|[->|Hw]%elem_of_cons]%elem_of_cons.
        -- apply Hmax. left.
        -- assert (v ≤ foldl (λ a0 b, if (a0 <? b)%Z then b else a0) v vs)%Z
             by (apply Hmax; left). lia.
        -- apply Hmax. by right.
Qed.

Lemma keep_min_spec (v : Z) (vs : list Z) :
  foldl (keep_min Z.ltb) v vs ∈ v :: vs ∧
  ∀ w, w ∈ v :: vs → (foldl (keep_min Z.ltb) v vs ≤ w)%Z.
Proof.
  revert v. induction vs as [|a vs IH]; intros v; simpl.
  - split; [left |]. by intros w ->%list_elem_of_singleton.
  - destruct (IH (keep_min Z.ltb v a)) as [Hin Hmin]. unfold keep_min in *.
    destruct (Z.ltb_spec a v).
    + split; [by right |]. intros w [->|Hw]%elem_of_cons; [| by apply Hmin].
      assert (foldl (λ a0 b, if (b <? a0)%Z then b else a0) a vs ≤ a)%Z
        by (apply Hmin; left). lia.
    + split.
      * apply elem_of_cons in Hin as [->|Hin]; [left | by right; right].
      * intros w [->|[->|Hw]%elem_of_cons]%elem_of_cons.
        -- apply Hmin. left.
        -- assert (foldl (λ a0 b, if (b <? a0)%Z then b else a0) v vs ≤ v)%Z
             by (apply Hmin; left). lia.
        -- apply Hmin. by right.
Qed.

(** X16. Over a stack of integers, [std::max_element] and
    [std::min_element] between [begin] and [end] return iterators to nodes
    of the stack that hold its greatest and its least value; over the empty
    stack they return [end]. *)
Theorem max_min_element (p : stack_pool Z) fuel h l x :
  chain p h l → (length l ≤ S fuel)%nat →
  (l = [] →
   max_element Z.ltb fuel p (begin_ h) (end_it x) = Done (end_it x) ∧
   min_element Z.ltb fuel p (begin_ h) (end_it x) = Done (end_it x)) ∧
  (l ≠ [] →
   ∃ hM M hm m,
     max_element Z.ltb fuel p (begin_ h) (end_it x) = Done (begin_ hM) ∧
     deref p (begin_ hM) = Done M ∧ hM ∈ l.*1 ∧ M ∈ l.*2 ∧
     (∀ w, w ∈ l.*2 → (w ≤ M)%Z) ∧
     min_element Z.ltb fuel p (begin_ h) (end_it x) = Done (begin_ hm) ∧
     deref p (begin_ hm) = Done m ∧ hm ∈ l.*1 ∧ m ∈ l.*2 ∧
     (∀ w, w ∈ l.*2 → (m ≤ w)%Z)).
Proof.
  intros Hl Hfuel. split.
  - intros ->. by apply chain_nil_inv in Hl as ->.
  - intros Hne. destruct l as [|[h' v] l]; [done |]. clear Hne.
    pose proof (chain_cons_inv _ _ _ _ _ Hl) as [-> _]. simpl in Hfuel.
    destruct (element_on_chain Z.ltb p fuel h' v l x Hl)
      as [(hM & HM & HdM & HinM) (hm & Hm & Hdm & Hinm)]; [lia |].
    destruct (keep_max_spec v l.*2) as [? ?].
    destruct (keep_min_spec v l.*2) as [? ?].
    exists hM, (foldl (keep_max Z.ltb) v l.*2),
           hm, (foldl (keep_min Z.ltb) v l.*2).
    by split_and!.
Qed.

(** ** Handles used after they are released *)

Section stale_handles.
Context {T : Type}.
Variable grow : N → N.
Implicit Types (p : stack_pool T) (x y h : N) (n : node_t T).

Lemma print_self_loop p x n fuel :
  x ≠ 0 → node p x = Done n → n_next n = x →
  print_stack fuel p x = OutOfFuel.
Proof.
  intros Hx Hn Hnx. unfold print_stack.
  induction fuel as [|fuel IH]; simpl;
    rewrite (iter_neq_end x Hx : iter_neq (begin_ x) (end_it 0) = true);
    [done |].
  unfold deref, incr_post, incr. simpl.
  rewrite (value_Done _ _ _ Hn), (next_Done _ _ _ Hn). simpl.
  rewrite Hnx. fold (begin_ x). by rewrite IH.
Qed.

(** X18. [push] does not check that its head is the top of a stack: a
    [push] onto the handle that a [pop] has just released takes that very
    node from the free list and links it to itself, so that the handle
    returned heads a cycle, whose traversal never ends. *)
Theorem push_on_popped_handle p x n val :
  x ≠ 0 → node p x = Done n →
  ∃ p1 p2, pop p x = Done (p1, n_next n) ∧
           push grow p1 val x = Done (p2, x) ∧
           node p2 x = Done (Node val x) ∧
           free_nodes p2 = free_nodes p ∧
           ∀ fuel, print_stack fuel p2 x = OutOfFuel.
Proof.
  intros Hx Hn.
  set (p1 := set_free_nodes (upd p x (Node (n_value n) (free_nodes p))) x).
  assert (Hn1 : node p1 (free_nodes p1) = Done (Node (n_value n) (free_nodes p)))
    by by eapply node_upd_eq.
  set (p2 := set_free_nodes (upd p1 x (Node val x)) (free_nodes p)).
  assert (Hn2 : node p2 x = Done (Node val x))
    by exact (node_upd_eq p1 x _ _ Hn1).
  exists p1, p2. split_and!; [by apply pop_node | | done | done |].
  - unfold push. by rewrite (push_recycle grow p1 val x _ Hx Hn1).
  - intros fuel. by apply (print_self_loop p2 x (Node val x)).
Qed.

(** X19. [pop] does not check that its handle is the top of a stack either:
    a second [pop] of the handle just popped links the node to itself on
    the free list.  The next two pushes then both return this node, the
    second overwriting the value of the first, and leave as free head the
    head that the first was given. *)
Theorem double_pop p x n v1 h1 v2 h2 :
  x ≠ 0 → node p x = Done n →
  ∃ p1 p2 p3 p4,
    pop p x = Done (p1, n_next n) ∧
    pop p1 x = Done (p2, free_nodes p) ∧
    free_nodes p2 = x ∧ next p2 x = Done x ∧
    push grow p2 v1 h1 = Done (p3, x) ∧
    push grow p3 v2 h2 = Done (p4, x) ∧
    node p4 x = Done (Node v2 h2) ∧
    free_nodes p4 = h1 ∧
    vec.size (pool p4) = vec.size (pool p).
Proof.
  intros Hx Hn.
  set (p1 := set_free_nodes (upd p x (Node (n_value n) (free_nodes p))) x).
  assert (Hn1 : node p1 x = Done (Node (n_value n) (free_nodes p)))
    by by eapply node_upd_eq.
  set (p2 := set_free_nodes (upd p1 x (Node (n_value n) x)) x).
  assert (Hn2 : node p2 x = Done (Node (n_value n) x))
    by exact (node_upd_eq p1 x _ _ Hn1).
  set (p3 := set_free_nodes (upd p2 x (Node v1 h1)) x).
  assert (Hn3 : node p3 x = Done (Node v1 h1))
    by exact (node_upd_eq p2 x _ _ Hn2).
  set (p4 := set_free_nodes (upd p3 x (Node v2 h2)) h1).
  assert (Hn4 : node p4 x = Done (Node v2 h2))
    by exact (node_upd_eq p3 x _ _ Hn3).
  exists p1, p2, p3, p4. split_and!.
  - by apply pop_node.
  - by rewrite (pop_node p1 x _ Hx Hn1).
  - done.
  - by rewrite (next_Done _ _ _ Hn2).
  - unfold push. by rewrite (push_recycle grow p2 v1 h1 _ Hx Hn2).
  - unfold push. by rewrite (push_recycle grow p3 v2 h2 _ Hx Hn3).
  - done.
  - done.
  - unfold p4, p3, p2, p1. by rewrite !size_recycled.
Qed.
End stale_handles.

(** ** The further properties on the pools of the driver *)

Example main_asserts :
  main_state = Done (main_pool, 11, 22) ∧
  (it ← max_element Z.ltb 11 main_pool (begin_ 11) (end_it 11); deref main_pool it)
  = Done 9%Z ∧
  (it ← min_element Z.ltb 11 main_pool (begin_ 22) (end_it 22); deref main_pool it)
  = Done 1%Z.
Proof. by vm_compute. Qed.

Lemma ps_chain4 : chain ps 4 [(4, 9%Z); (3, 8%Z)].
Proof. by apply (walk_chain 2). Defined.

Lemma ps_chain2 : chain ps 2 [(2, 1%Z); (1, 3%Z)].
Proof. by apply (walk_chain 2). Defined.

Lemma ps_free_apart :
  free_nodes ps ≠ 0 →
  (∃ n, node ps (free_nodes ps) = Done n) ∧
  free_nodes ps ∉ [(4, 9%Z); (3, 8%Z)].*1.
Proof.
  intros _. split; [by eexists |]. simpl.
  intros [?|[?|?%elem_of_nil]%elem_of_cons]%elem_of_cons; done.
Defined.

Lemma pbad_free_head n : node pbad (free_nodes pbad) ≠ Done n.
Proof. done. Defined.

Lemma ps_unallocated n : node ps 7 ≠ Done n.
Proof. done. Defined.

Lemma push_outcome_witness :
  (free_nodes p5 = 0 ∧ ∃ p', push grow_double p5 6%Z 5 = Done (p', 6)) ∧
  (free_nodes ps ≠ 0 ∧ node ps (free_nodes ps) = Done (Node 7%Z 0) ∧
   ∃ p', push grow_double ps 6%Z 4 = Done (p', 5)) ∧
  (free_nodes pbad ≠ 0 ∧ (∀ n, node pbad (free_nodes pbad) ≠ Done n) ∧
   push grow_double pbad 6%Z 0 = OutOfRange 2).
Proof.
  destruct (push_outcome grow_double p5 6%Z 5) as (H5 & _).
  destruct (push_outcome grow_double ps 6%Z 4) as (_ & Hs & _).
  destruct (push_outcome grow_double pbad 6%Z 0) as (_ & Hb & _).
  split; [split; [reflexivity | eexists; by apply H5] |].
  split.
  - split; [done |]. split; [reflexivity |].
    destruct Hs as [Hs _]; [done |]. eexists. by apply (Hs (Node 7%Z 0)).
  - split; [done |]. split; [exact pbad_free_head |].
    destruct Hb as [_ Hb]; [done |]. exact (Hb pbad_free_head).
Defined.

Lemma pop_outcome_witness :
  (4 ≠ 0 ∧ node ps 4 = Done (Node 9%Z 3) ∧ ∃ p', pop ps 4 = Done (p', 3)) ∧
  (7 ≠ 0 ∧ (∀ n, node ps 7 ≠ Done n) ∧ pop ps 7 = OutOfRange 6).
Proof.
  destruct (pop_outcome ps 4) as (H4 & _); [done |].
  destruct (pop_outcome ps 7) as (_ & H7 & _); [done |].
  split.
  - split; [done |]. split; [reflexivity |].
    eexists. by apply (H4 (Node 9%Z 3)).
  - split; [done |]. split; [exact ps_unallocated |].
    exact (H7 ps_unallocated).
Defined.

Lemma pop_push_restores_witness :
  4 ≠ 0 ∧ node ps 4 = Done (Node 9%Z 3) ∧
  ∃ p1, pop ps 4 = Done (p1, 3) ∧ push grow_double p1 9%Z 3 = Done (ps, 4).
Proof.
  split; [done |]. split; [reflexivity |].
  apply (pop_push_restores grow_double ps 4 (Node 9%Z 3)); done.
Defined.

Lemma push_traversal_witness :
  chain ps 4 [(4, 9%Z); (3, 8%Z)] ∧
  ∃ p1 h, push grow_double ps 6%Z 4 = Done (p1, h) ∧
          print_stack 3 p1 h = Done [6; 9; 8]%Z.
Proof.
  split; [exact ps_chain4 |].
  destruct (push_traversal grow_double ps 4 _ 6%Z ps_chain4 ps_free_apart)
    as (p1 & h & Hpush & _ & Hprint).
  exists p1, h. split; [exact Hpush |]. apply (Hprint 3%nat). simpl. lia.
Defined.

Lemma pop_traversal_witness :
  chain ps 4 ((4, 9%Z) :: [(3, 8%Z)]) ∧
  ∃ p1 h, pop ps 4 = Done (p1, h) ∧ free_nodes p1 = 4 ∧
          print_stack 1 p1 h = Done [8]%Z.
Proof.
  split; [exact ps_chain4 |].
  destruct (pop_traversal ps 4 9%Z [(3, 8%Z)] ps_chain4)
    as (p1 & h & Hpop & _ & Hf & _ & _ & Hprint & _).
  exists p1, h. split_and!; [done | done |]. apply (Hprint 1%nat). simpl. lia.
Defined.

Lemma free_stack_iff_witness :
  vec.size (pool ps) ≤ SIZE_MAX ∧
  ∃ l t vt, chain ps 4 (l ++ [(t, vt)]) ∧ (length l ≤ 1)%nat ∧
            free_stack 1 ps 4
            = Done (set_free_nodes (upd ps t (Node vt (free_nodes ps))) 4, 0).
Proof.
  assert (Hs : vec.size (pool ps) ≤ SIZE_MAX) by (by vm_compute).
  split; [exact Hs |].
  destruct (free_stack_iff 1 ps 4
              (StackPool (Vector [Node 3 0; Node 1 1; Node 8 5; Node 9 3;
                                  Node 7 0]%Z 22) 4, 0) Hs) as [H _].
  destruct (H eq_refl) as (l & t & vt & Hl & Hlen & E).
  exists l, t, vt. split_and!; [done | done |].
  apply (free_stack_iff 1 ps 4 _ Hs). by exists l, t, vt.
Defined.

Lemma other_stacks_untouched_witness :
  I2 ps ([2] ++ 4 :: []) ∧ 2 ∈ [2] ++ [] ∧ chain ps 2 [(2, 1%Z); (1, 3%Z)] ∧
  (∃ p' h, push grow_double ps 6%Z 4 = Done (p', h) ∧
           chain p' 2 [(2, 1%Z); (1, 3%Z)]) ∧
  (∃ p' h, pop ps 4 = Done (p', h) ∧ chain p' 2 [(2, 1%Z); (1, 3%Z)]).
Proof.
  assert (HI : I2 ps ([2] ++ 4 :: [])) by (by apply I2b_spec).
  assert (Hin : 2 ∈ [2] ++ []) by (by left).
  split; [exact HI |]. split; [exact Hin |]. split; [exact ps_chain2 |].
  destruct (other_stacks_untouched grow_double ps [2] 4 [] 2 _ HI Hin ps_chain2)
    as (Hpush & Hpop & _).
  split.
  - destruct (Hpush 6%Z) as (p' & h & ? & ? & _). by exists p', h.
  - destruct Hpop as (p' & h & ? & ? & _). by exists p', h.
Defined.

Lemma operations_keep_storage_witness :
  (push grow_double p5 6%Z 5
   = Done (StackPool (Vector [Node 3 0; Node 1 1; Node 4 2; Node 1 3;
                              Node 5 4; Node 6 5]%Z 22) 0, 6) ∧
   node p5 5 = Done (Node 5%Z 4) ∧
   node (StackPool (Vector [Node 3 0; Node 1 1; Node 4 2; Node 1 3;
                            Node 5 4; Node 6 5]%Z 22) 0) 5
   = Done (Node 5%Z 4)) ∧
  (∃ p', pop ps 4 = Done (p', 3) ∧
         vec.size (pool p') = vec.size (pool ps) ∧ value p' 4 = value ps 4) ∧
  (∃ p', free_stack 1 ps 4 = Done (p', 0) ∧
         vec.size (pool p') = vec.size (pool ps) ∧ value p' 3 = value ps 3).
Proof.
  destruct (operations_keep_storage grow_double p5) as (Hpush & _).
  destruct (operations_keep_storage grow_double ps) as (_ & Hpop & Hfree & _).
  split_and!.
  - reflexivity.
  - reflexivity.
  - destruct (Hpush 6%Z 5 _ 6 eq_refl) as (H & _).
    apply H; [done | done | reflexivity].
  - eexists. split; [reflexivity |].
    destruct (Hpop 4 _ 3 eq_refl) as (Hs & _ & Hv & _). split; [exact Hs | apply Hv].
  - eexists. split; [reflexivity |].
    destruct (Hfree 1%nat 4 _ 0 eq_refl) as (Hs & _ & Hv).
    split; [exact Hs | apply Hv].
Defined.

Lemma value_write_witness :
  3 ≠ 0 ∧ node ps 3 = Done (Node 8%Z 0) ∧ chain ps 4 [(4, 9%Z); (3, 8%Z)] ∧
  ∃ p', set_value ps 3 0%Z = Done p' ∧ value p' 3 = Done 0%Z ∧
        chain p' 4 [(4, 9%Z); (3, 0%Z)].
Proof.
  split; [done |]. split; [reflexivity |]. split; [exact ps_chain4 |].
  destruct (value_write ps 3 0%Z (Node 8%Z 0) 4 _ ltac:(done) eq_refl ps_chain4)
    as (p' & Hset & Hv & _ & _ & Hc).
  by exists p'.
Defined.

Lemma first_impl_print_stack_witness :
  vec.size (pool ps) ≤ SIZE_MAX ∧ chain ps 4 [(4, 9%Z); (3, 8%Z)] ∧
  FirstImpl.print_stack 16 2 ps 4 = OutOfRange SIZE_MAX ∧
  FirstImpl.print_stack 16 2 ps 0 = OutOfRange SIZE_MAX ∧
  print_stack 2 ps 4 = Done [9; 8]%Z.
Proof.
  assert (Hs : vec.size (pool ps) ≤ SIZE_MAX) by (by vm_compute).
  split; [exact Hs |]. split; [exact ps_chain4 |].
  destruct (first_impl_print_stack 16 2 ps 4 Hs) as [_ H4].
  destruct (first_impl_print_stack 16 2 ps 0 Hs) as [_ H0].
  destruct (H4 _ ps_chain4) as [Hf Hh].
  destruct (H0 [] (chain_end ps)) as [Hf0 _].
  split; [exact Hf |]. split; [exact Hf0 | exact Hh].
Defined.

Lemma first_impl_free_stack_witness :
  vec.size (pool ps) ≤ SIZE_MAX ∧
  ∃ i, FirstImpl.free_stack 16 1 ps 4 = OutOfRange i ∧
       (node ps 4 = OutOfRange i ∨
        ∃ n, node ps 4 = Done n ∧
             (node ps (n_next n) = OutOfRange i ∨
              i = SIZE_MAX ∧ ∃ n', node ps (n_next n) = Done n')).
Proof.
  assert (Hs : vec.size (pool ps) ≤ SIZE_MAX) by (by vm_compute).
  split; [exact Hs |]. exact (first_impl_free_stack 16 ps 1 4 Hs).
Defined.

Lemma validated_pop_agrees_witness :
  4 ≠ 0 ∧ Validated.pop ps 4 = (pop ps 4, []).
Proof.
  split; [done |]. by apply (validated_pop_agrees ps 4).
Defined.

Lemma validated_pop_fallback_witness :
  I2 p22 ([] ++ 0 :: []) ∧
  ∃ h, (Validated.pop p22 0).1 = Done (p22, h) ∧ h = 1 ∧
       ¬ I2 p22 ([] ++ h :: []).
Proof.
  assert (HI : I2 p22 ([] ++ 0 :: [])) by (by apply I2b_spec).
  split; [exact HI |]. exact (validated_pop_fallback p22 [] [] HI).
Defined.

Lemma ps_reachable : reachable grow_double ps [4; 2].
Proof.
  pose proof (reach_new_stack grow_double _ _
                (reach_make_n (T:=Z) grow_double 22)) as H.
  eapply (reachable_push_all _ _ _ _ [3; 1]%Z) in H; [| reflexivity].
  apply reach_new_stack in H.
  eapply (reachable_push_all _ _ _ _ [8; 9; 7]%Z) in H; [| reflexivity].
  eapply (reach_pop _ _ [] _ [2]) in H; [| reflexivity].
  exact H.
Defined.

Lemma reachable_I2_witness : reachable grow_double ps [4; 2] ∧ I2 ps [4; 2].
Proof.
  split; [exact ps_reachable |]. exact (reachable_I2 grow_double ps _ ps_reachable).
Defined.

Lemma free_stack_then_rebuild_witness :
  chain p5 5 ([(5, 5%Z); (4, 1%Z); (3, 4%Z); (2, 1%Z)] ++ [(1, 3%Z)]) ∧
  ∃ p1 p2, free_stack 4 p5 5 = Done (p1, 0) ∧
           push_all grow_double p1 [1; 2; 3; 4; 5]%Z new_stack = Done (p2, 1) ∧
           free_nodes p2 = 0 ∧
           chain p2 1 [(1, 5%Z); (2, 4%Z); (3, 3%Z); (4, 2%Z); (5, 1%Z)] ∧
           print_stack 5 p2 1 = Done [5; 4; 3; 2; 1]%Z.
Proof.
  split; [exact p5_chain |].
  destruct (free_stack_then_rebuild grow_double p5 5 _ 1 3%Z 4
              [1; 2; 3; 4; 5]%Z p5_chain)
    as (p1 & p2 & Hfree & Hall & Hf & _ & Hc & Hprint); [simpl; lia | done |].
  exists p1, p2. split_and!; [done | done | done | exact Hc |].
  apply (Hprint 5%nat). simpl. lia.
Defined.

Lemma main_chain : chain main_pool 11 main_l1.
Proof. by apply (walk_chain 11). Defined.

Lemma max_min_element_witness :
  chain main_pool 11 main_l1 ∧ (length main_l1 ≤ S 10)%nat ∧ main_l1 ≠ [] ∧
  ∃ hM M hm m,
    max_element Z.ltb 10 main_pool (begin_ 11) (end_it 11) = Done (begin_ hM) ∧
    deref main_pool (begin_ hM) = Done M ∧
    hM ∈ main_l1.*1 ∧ M ∈ main_l1.*2 ∧
    (∀ w, w ∈ main_l1.*2 → (w ≤ M)%Z) ∧
    min_element Z.ltb 10 main_pool (begin_ 11) (end_it 11) = Done (begin_ hm) ∧
    deref main_pool (begin_ hm) = Done m ∧
    hm ∈ main_l1.*1 ∧ m ∈ main_l1.*2 ∧
    (∀ w, w ∈ main_l1.*2 → (m ≤ w)%Z).
Proof.
  assert (Hlen : (length main_l1 ≤ S 10)%nat) by (simpl; lia).
  assert (Hne : main_l1 ≠ []) by done.
  split; [exact main_chain |]. split; [exact Hlen |]. split; [exact Hne |].
  destruct (max_min_element main_pool 10 11 main_l1 11 main_chain Hlen) as [_ H].
  exact (H Hne).
Defined.

Lemma push_on_popped_handle_witness :
  4 ≠ 0 ∧ node ps 4 = Done (Node 9%Z 3) ∧
  ∃ p1 p2, pop ps 4 = Done (p1, 3) ∧
           push grow_double p1 6%Z 4 = Done (p2, 4) ∧
           node p2 4 = Done (Node 6%Z 4) ∧
           print_stack 100 p2 4 = OutOfFuel.
Proof.
  split; [done |]. split; [reflexivity |].
  destruct (push_on_popped_handle grow_double ps 4 (Node 9%Z 3) 6%Z)
    as (p1 & p2 & Hpop & Hpush & Hn & _ & Hprint); [done | reflexivity |].
  exists p1, p2. by split_and!.
Defined.

Lemma double_pop_witness :
  4 ≠ 0 ∧ node ps 4 = Done (Node 9%Z 3) ∧
  ∃ p1 p2 p3 p4,
    pop ps 4 = Done (p1, 3) ∧ pop p1 4 = Done (p2, 5) ∧
    push grow_double p2 6%Z 3 = Done (p3, 4) ∧
    push grow_double p3 7%Z 2 = Done (p4, 4) ∧
    node p4 4 = Done (Node 7%Z 2) ∧ free_nodes p4 = 3.
Proof.
  split; [done |]. split; [reflexivity |].
  destruct (double_pop grow_double ps 4 (Node 9%Z 3) 6%Z 3 7%Z 2)
    as (p1 & p2 & p3 & p4 & H1 & H2 & _ & _ & H3 & H4 & Hn & Hf & _);
    [done | reflexivity |].
  exists p1, p2, p3, p4. by split_and!.
Defined.
